(** * MoveAI: a shallow embedding of [src/MoveAI.ts]

    The TypeScript class [MoveAI] classifies an intent string, instantiates
    Move source templates, scans Move source for declared names and runs
    three substring rules over pasted source.  Every definition below is a
    transliteration of the method of the same name.

    Strings are [string] (sequences of 8-bit characters) holding UTF-8
    text.  [String.prototype.includes] compares code units and is exact on
    that representation.  [\w] is [[A-Za-z0-9_]], one byte each.  [\s] is
    the white-space and line-terminator set of the language, six
    characters of one byte and nineteen of two or three bytes.
    [toLowerCase] folds [A-Z] and the two characters outside ASCII whose
    lower-case form holds an ASCII letter: U+212A (Kelvin sign) becomes
    [k] and U+0130 becomes [i] followed by U+0307.  The lower-case form
    of every other character outside ASCII lies outside ASCII as well, so
    such characters are kept as they are: every test of the lower-cased
    text against the ASCII keywords of this file has the answer it has in
    the source. *)

From Stdlib Require Import Ascii ZArith Lia Bool.
From stdpp Require Import base option list strings gmap.

(** ** Strings *)

Module Str.

(** [c.toLowerCase()] on one character. *)
Definition lower (c : ascii) : ascii :=
  let n := N_of_ascii c in
  if ((65 <=? n) && (n <=? 90))%N then ascii_of_N (n + 32) else c.

(** [s.toLowerCase()].  The bytes 196 176 encode U+0130, whose lower-case
    form is [i] followed by U+0307 (bytes 204 135); the bytes 226 132 170
    encode U+212A, whose lower-case form is [k]. *)
Fixpoint toLowerCase (s : string) : string :=
  match s with
  | EmptyString => EmptyString
  | String c s1 =>
      match s1 with
      | EmptyString => String (lower c) (toLowerCase s1)
      | String c2 s2 =>
          if Ascii.eqb c "196" && Ascii.eqb c2 "176" then
            String "i" (String "204" (String "135" (toLowerCase s2)))
          else
            match s2 with
            | EmptyString => String (lower c) (toLowerCase s1)
            | String c3 s3 =>
                if Ascii.eqb c "226" && Ascii.eqb c2 "132" && Ascii.eqb c3 "170"
                then String "k" (toLowerCase s3)
                else String (lower c) (toLowerCase s1)
            end
      end
  end%char.

(** [s.startsWith(p)]; the position-wise test behind [includes]. *)
Fixpoint startsWith (s p : string) {struct p} : bool :=
  match p with
  | EmptyString => true
  | String a p' =>
      match s with
      | EmptyString => false
      | String b s' => Ascii.eqb a b && startsWith s' p'
      end
  end.

(** [s.includes(sub)]: [sub] occurs in [s] at some index. *)
Fixpoint includes (s sub : string) : bool :=
  startsWith s sub ||
  match s with
  | EmptyString => false
  | String _ s' => includes s' sub
  end.



(** The characters of [\s]: tab, line feed, vertical tab, form feed,
    carriage return, space, then U+00A0, U+1680, U+2000 to U+200A, U+2028,
    U+2029, U+202F, U+205F, U+3000 and U+FEFF in UTF-8. *)
Definition whiteSpace : list string :=
  map String.string_of_list_ascii
    [ ["009"]; ["010"]; ["011"]; ["012"]; ["013"]; ["032"];
      ["194"; "160"];
      ["225"; "154"; "128"];
      ["226"; "128"; "128"]; ["226"; "128"; "129"]; ["226"; "128"; "130"];
      ["226"; "128"; "131"]; ["226"; "128"; "132"]; ["226"; "128"; "133"];
      ["226"; "128"; "134"]; ["226"; "128"; "135"]; ["226"; "128"; "136"];
      ["226"; "128"; "137"]; ["226"; "128"; "138"];
      ["226"; "128"; "168"]; ["226"; "128"; "169"];
      ["226"; "128"; "175"];
      ["226"; "129"; "159"];
      ["227"; "128"; "128"];
      ["239"; "187"; "191"] ]%char.

(** The length in bytes of the [\s] character at the head of [s], 0 when
    [s] does not start with one. *)
Definition spaceLen (s : string) : nat :=
  match List.find (startsWith s) whiteSpace with
  | Some w => String.length w
  | None => 0
  end.

(** [\w] of a regular expression without the [u] and [i] flags. *)
Definition isWord (c : ascii) : bool :=
  let n := N_of_ascii c in
  (((48 <=? n) && (n <=? 57)) || ((65 <=? n) && (n <=? 90))
   || (n =? 95) || ((97 <=? n) && (n <=? 122)))%N.

End Str.

Import Str.

(** ** Template texts

    The bodies of the template literals of the four generators, from the
    character after the interpolated module name to the closing brace. *)

Definition module_body : string :=
" {
    use std::signer;

    const E_NOT_AUTHORIZED: u64 = 1;

    struct Data has key {
        value: u64
    }

    public fun initialize(account: &signer) {
        let account_addr = signer::address_of(account);
        move_to(account, Data { value: 0 });
    }

    public fun update_value(account: &signer, new_value: u64) acquires Data {
        let account_addr = signer::address_of(account);
        let data = borrow_global_mut<Data>(account_addr);
        data.value = new_value;
    }

    public fun get_value(account_addr: address): u64 acquires Data {
        borrow_global<Data>(account_addr).value
    }
}".

Definition token_body : string :=
" {
    use std::signer;
    use std::string::String;

    const E_NOT_INITIALIZED: u64 = 1;
    const E_ALREADY_INITIALIZED: u64 = 2;
    const E_INSUFFICIENT_BALANCE: u64 = 3;

    struct TokenInfo has key {
        name: String,
        symbol: String,
        decimals: u8,
        total_supply: u64
    }

    struct Balance has key {
        value: u64
    }

    public fun initialize(
        account: &signer,
        name: String,
        symbol: String,
        decimals: u8,
        initial_supply: u64
    ) {
        let account_addr = signer::address_of(account);
        assert!(!exists<TokenInfo>(account_addr), E_ALREADY_INITIALIZED);

        move_to(account, TokenInfo {
            name,
            symbol,
            decimals,
            total_supply: initial_supply
        });

        move_to(account, Balance {
            value: initial_supply
        });
    }

    public entry fun transfer(
        from: &signer,
        to: address,
        amount: u64
    ) acquires Balance {
        let from_addr = signer::address_of(from);
        let from_balance = borrow_global_mut<Balance>(from_addr);
        
        assert!(from_balance.value >= amount, E_INSUFFICIENT_BALANCE);
        from_balance.value = from_balance.value - amount;

        if (!exists<Balance>(to)) {
            move_to(from, Balance { value: 0 });
        };

        let to_balance = borrow_global_mut<Balance>(to);
        to_balance.value = to_balance.value + amount;
    }

    public fun balance_of(account: address): u64 acquires Balance {
        assert!(exists<Balance>(account), E_NOT_INITIALIZED);
        borrow_global<Balance>(account).value
    }
}".

Definition nft_body : string :=
" {
    use std::signer;
    use std::string::String;
    use std::vector;

    const E_NOT_OWNER: u64 = 1;
    const E_TOKEN_NOT_FOUND: u64 = 2;

    struct NFTCollection has key {
        tokens: vector<NFT>,
        next_id: u64
    }

    struct NFT has store, drop {
        id: u64,
        name: String,
        description: String,
        uri: String,
        owner: address
    }

    public fun initialize_collection(account: &signer) {
        let account_addr = signer::address_of(account);
        
        move_to(account, NFTCollection {
            tokens: vector::empty<NFT>(),
            next_id: 0
        });
    }

    public entry fun mint_nft(
        account: &signer,
        name: String,
        description: String,
        uri: String
    ) acquires NFTCollection {
        let account_addr = signer::address_of(account);
        let collection = borrow_global_mut<NFTCollection>(account_addr);
        
        let new_nft = NFT {
            id: collection.next_id,
            name,
            description,
            uri,
            owner: account_addr
        };

        vector::push_back(&mut collection.tokens, new_nft);
        collection.next_id = collection.next_id + 1;
    }

    public fun get_nft_count(account: address): u64 acquires NFTCollection {
        let collection = borrow_global<NFTCollection>(account);
        vector::length(&collection.tokens)
    }
}".

Definition marketplace_body_1 : string :=
" {
    use std::signer;
    use std::vector;

    const E_LISTING_NOT_FOUND: u64 = 1;
    const E_INSUFFICIENT_PAYMENT: u64 = 2;
    const E_NOT_SELLER: u64 = 3;

    struct Listing has store, drop {
        id: u64,
        seller: address,
        price: u64,
        item_id: u64,
        active: bool
    }

    struct MarketplaceData has key {
        listings: vector<Listing>,
        next_listing_id: u64
    }

    public fun initialize(account: &signer) {
        move_to(account, MarketplaceData {
            listings: vector::empty<Listing>(),
            next_listing_id: 0
        });
    }

    public entry fun create_listing(
        seller: &signer,
        item_id: u64,
        price: u64
    ) acquires MarketplaceData {
        let seller_addr = signer::address_of(seller);
        let marketplace = borrow_global_mut<MarketplaceData>(@".

Definition marketplace_body_2 : string :=
");
        
        let listing = Listing {
            id: marketplace.next_listing_id,
            seller: seller_addr,
            price,
            item_id,
            active: true
        };

        vector::push_back(&mut marketplace.listings, listing);
        marketplace.next_listing_id = marketplace.next_listing_id + 1;
    }
}".

Definition abilities_text : string :=
"Move Abilities:
- key: Can be stored in global storage
- store: Can be stored inside other structs
- copy: Can be copied
- drop: Can be dropped/destroyed

Example: struct MyResource has key, store { ... }".

Definition resources_text : string :=
"Move Resources:
- Structs with the 'key' ability
- Can be stored in global storage
- Cannot be copied or dropped (linear types)
- Accessed with move_to(), borrow_global(), exists()".

Definition acquires_text : string :=
"Acquires Keyword:
Functions that access global storage must declare which resources they acquire.

Example:
public fun transfer() acquires Balance {
    let balance = borrow_global_mut<Balance>(addr);
}".

Definition signer_text : string :=
"Signer Type:
- Represents transaction sender authority
- Cannot be copied or stored
- Used to prove ownership/authorization
- Common pattern: signer::address_of(&signer)".

Definition fallback : string :=
"// Unable to generate code. Try: 'create a token', 'create an nft', 'create a marketplace'".

Definition concept_not_found : string :=
"Concept not found. Available: abilities, resources, acquires, signer".

Definition warn_acquires : string :=
"⚠️  Functions using borrow_global must declare 'acquires'".

Definition warn_key : string :=
"⚠️  Resources moved to storage need 'key' ability".

Definition suggest_constants : string :=
"💡 Consider defining error constants".

Definition no_issues : string :=
"✅ No obvious issues found!".

Definition transfer_text : string :=
"public entry fun transfer(
        from: &signer,
        to: address,
        amount: u64
    ) acquires Balance {
        let from_addr = signer::address_of(from);
        let from_balance = borrow_global_mut<Balance>(from_addr);
        
        assert!(from_balance.value >= amount, E_INSUFFICIENT_BALANCE);
        from_balance.value = from_balance.value - amount;

        if (!exists<Balance>(to)) {
            move_to(from, Balance { value: 0 });
        };

        let to_balance = borrow_global_mut<Balance>(to);
        to_balance.value = to_balance.value + amount;
    }".

(** ** Generators *)

(** [params.key || dflt]: an absent key reads [undefined], and both
    [undefined] and the empty string are falsy. *)
Definition or_default (v : option string) (dflt : string) : string :=
  match v with
  | Some (String c s) => String c s
  | Some EmptyString | None => dflt
  end.

Definition header (address moduleName : string) : string :=
  "module " +:+ address +:+ "::" +:+ moduleName.

Definition generateModule (params : gmap string string) : string :=
  let moduleName := or_default (params !! "name") "MyModule" in
  let address := or_default (params !! "address") "0x1" in
  header address moduleName +:+ module_body.

Definition generateTokenContract (params : gmap string string) : string :=
  let moduleName := or_default (params !! "name") "MyToken" in
  let address := or_default (params !! "address") "0x1" in
  header address moduleName +:+ token_body.

Definition generateNFTContract (params : gmap string string) : string :=
  let moduleName := or_default (params !! "name") "MyNFT" in
  let address := or_default (params !! "address") "0x1" in
  header address moduleName +:+ nft_body.

Definition generateMarketplace (params : gmap string string) : string :=
  let moduleName := or_default (params !! "name") "Marketplace" in
  let address := or_default (params !! "address") "0x1" in
  header address moduleName +:+ marketplace_body_1 +:+ address
    +:+ marketplace_body_2.

Definition generateCode (intent : string) (params : gmap string string) : string :=
  let intentLower := toLowerCase intent in
  if includes intentLower "token" || includes intentLower "coin" then
    generateTokenContract params
  else if includes intentLower "nft" then
    generateNFTContract params
  else if includes intentLower "marketplace" then
    generateMarketplace params
  else if includes intentLower "module" then
    generateModule params
  else fallback.

(** ** The reviewer *)

Definition reviewCode (code : string) : list string :=
  let issues : list string := [] in
  let issues :=
    if includes code "borrow_global" && negb (includes code "acquires")
    then issues ++ [warn_acquires] else issues in
  let issues :=
    if includes code "move_to" && includes code "struct" then
      if negb (includes code "has key") then issues ++ [warn_key] else issues
    else issues in
  let issues :=
    if negb (includes code "const E_")
    then issues ++ [suggest_constants] else issues in
  if length issues =? 0 then [no_issues] else issues.

(** ** The glossary *)

(** [Object.entries] lists string keys in insertion order, so the object
    literal is an association list in the order it is written. *)
Definition explanations : list (string * string) :=
  [ ("abilities", abilities_text);
    ("resources", resources_text);
    ("acquires", acquires_text);
    ("signer", signer_text) ].

(** The [for ... of] loop with its early [return]. *)
Fixpoint explainLoop (conceptLower : string) (entries : list (string * string))
  : option string :=
  match entries with
  | [] => None
  | (key, explanation) :: entries' =>
      if includes conceptLower key then Some explanation
      else explainLoop conceptLower entries'
  end.

Definition explainConcept (concept : string) : string :=
  let conceptLower := toLowerCase concept in
  match explainLoop conceptLower explanations with
  | Some explanation => explanation
  | None => concept_not_found
  end.

(** ** Regular expressions

    The three patterns of [analyzeCode] are built from literals, greedy
    [+] over a class of one-byte characters ([\w+]), greedy [+] over the
    white-space class ([\s+]), a greedy optional group and one capturing
    group.  [bt] is the backtracking matcher of the language definition in
    continuation-passing style: the continuation [k] receives the rest of
    the input and the capture, and a [None] from it makes the matcher try
    its next alternative. *)

Module Regex.

Inductive regex :=
| Lit (s : string)
| Plus (cls : ascii → bool)
| Spaces
| Opt (r : regex)
| Seq (r1 r2 : regex)
| Group (r : regex).

Fixpoint dropPrefix (p s : string) : option string :=
  match p with
  | EmptyString => Some s
  | String a p' =>
      match s with
      | EmptyString => None
      | String b s' => if Ascii.eqb a b then dropPrefix p' s' else None
      end
  end.

Fixpoint takeStr (n : nat) (s : string) : string :=
  match n, s with
  | S n', String c s' => String c (takeStr n' s')
  | _, _ => EmptyString
  end.

Fixpoint dropStr (n : nat) (s : string) : string :=
  match n, s with
  | S n', String _ s' => dropStr n' s'
  | _, _ => s
  end.

Section Matcher.
Context {R : Type}.

(** [cls+]: as many characters as possible, giving one back at a time
    while the continuation fails, never fewer than one. *)
Fixpoint plus (cls : ascii → bool) (s : string) (k : string → option R)
  : option R :=
  match s with
  | EmptyString => None
  | String c s' =>
      if cls c then
        match plus cls s' k with
        | Some res => Some res
        | None => k s'
        end
      else None
  end.

(** [\s+], after the first white-space character: [skip] bytes of the
    current character are still to be passed; at a character boundary one
    more white-space character is taken when there is one, and given back
    when the continuation fails. *)
Fixpoint spacesFrom (skip : nat) (s : string) (k : string → option R)
    {struct s} : option R :=
  match skip with
  | S n =>
      match s with
      | EmptyString => None
      | String _ s' => spacesFrom n s' k
      end
  | 0 =>
      match spaceLen s, s with
      | S n, String _ s' =>
          match spacesFrom n s' k with
          | Some res => Some res
          | None => k s
          end
      | _, _ => k s
      end
  end.

Definition spaces (s : string) (k : string → option R) : option R :=
  match spaceLen s, s with
  | S n, String _ s' => spacesFrom n s' k
  | _, _ => None
  end.

Fixpoint bt (r : regex) (s : string) (cap : option string)
    (k : string → option string → option R) : option R :=
  match r with
  | Lit p =>
      match dropPrefix p s with
      | Some rest => k rest cap
      | None => None
      end
  | Plus cls => plus cls s (λ rest, k rest cap)
  | Spaces => spaces s (λ rest, k rest cap)
  | Opt r' =>
      match bt r' s cap k with
      | Some res => Some res
      | None => k s cap
      end
  | Seq r1 r2 => bt r1 s cap (λ rest cap', bt r2 rest cap' k)
  | Group r' =>
      bt r' s cap
        (λ rest _, k rest (Some (takeStr (String.length s - String.length rest) s)))
  end.
End Matcher.

(** The leftmost match at or after the start of [s]: capture and rest. *)
Fixpoint search (r : regex) (s : string) : option (option string * string) :=
  match bt r s None (λ rest cap, Some (cap, rest)) with
  | Some m => Some m
  | None =>
      match s with
      | EmptyString => None
      | String _ s' => search r s'
      end
  end.

(** [r.exec(code)] for a pattern with the [g] flag whose [lastIndex] is
    [lastIndex]: [None] is [null], otherwise [match[1]] and the new
    [lastIndex].  (A failed [exec] also resets [lastIndex] to 0; the
    loops of [analyzeCode] stop there and never read it again.) *)
Definition exec (r : regex) (code : string) (lastIndex : nat)
  : option (option string * nat) :=
  if String.length code <? lastIndex then None
  else
    match search r (dropStr lastIndex code) with
    | Some (cap, rest) => Some (cap, String.length code - String.length rest)
    | None => None
    end.

(** [while ((match = r.exec(code)) !== null) { st = body(match[1], st) }].
    The outer [None] means that the loop did not finish normally: the
    fuel ran out or the body failed. *)
Fixpoint whileExec {St : Type} (fuel : nat) (r : regex) (code : string)
    (lastIndex : nat) (body : string → St → option St) (st : St) : option St :=
  match fuel with
  | 0 => None
  | S fuel' =>
      match exec r code lastIndex with
      | None => Some st
      | Some (cap, lastIndex') =>
          m1 ← cap;
          st' ← body m1 st;
          whileExec fuel' r code lastIndex' body st'
      end
  end.

End Regex.

Import Regex.

(** [/module\s+(\w+::\w+)/g] *)
Definition moduleRegex : regex :=
  Seq (Lit "module")
    (Seq Spaces (Group (Seq (Plus isWord) (Seq (Lit "::") (Plus isWord))))).

(** [/struct\s+(\w+)/g] *)
Definition structRegex : regex :=
  Seq (Lit "struct") (Seq Spaces (Group (Plus isWord))).

(** [/(?:public\s+)?fun\s+(\w+)/g] *)
Definition funcRegex : regex :=
  Seq (Opt (Seq (Lit "public") Spaces))
    (Seq (Lit "fun") (Seq Spaces (Group (Plus isWord)))).

(** ** The instance and its context

    A [MoveAI] object holds a reference to its context object, which holds
    references to three arrays; [analyzeCode] pushes onto those arrays in
    place and [getContext] hands out the reference to the context object.
    The store maps locations to objects. *)

Definition loc := nat.

Record MoveContext := {
  modules : loc;
  structs : loc;
  functions : loc
}.

Inductive object :=
| Arr (elems : list string)
| Ctx (c : MoveContext).

Record MoveCodeExample := {
  pattern : string;
  template : string;
  description : string
}.

Definition create_module_template : string :=
"module {{address}}::{{module_name}} {
    use std::signer;
    
    // Module code here
}".

Definition create_struct_template : string :=
"struct {{struct_name}} has key, store {
    {{fields}}
}".

Record MoveAI := {
  movePatterns : list MoveCodeExample;
  context : loc
}.

Definition alloc (o : object) (h : gmap loc object) : loc * gmap loc object :=
  let l := fresh (dom h) in (l, <[l := o]> h).

(** [new MoveAI()] *)
Definition constructor (h : gmap loc object) : MoveAI * gmap loc object :=
  let '(lm, h) := alloc (Arr []) h in
  let '(ls, h) := alloc (Arr []) h in
  let '(lf, h) := alloc (Arr []) h in
  let '(lc, h) := alloc (Ctx {| modules := lm; structs := ls; functions := lf |}) h in
  ({| movePatterns :=
        [ {| pattern := "create_module";
             template := create_module_template;
             description := "Creates a basic Move module structure" |};
          {| pattern := "create_struct";
             template := create_struct_template;
             description := "Creates a Move struct with abilities" |} ];
      context := lc |}, h).

Definition readCtx (h : gmap loc object) (l : loc) : option MoveContext :=
  match h !! l with
  | Some (Ctx c) => Some c
  | _ => None
  end.

Definition readArr (h : gmap loc object) (l : loc) : option (list string) :=
  match h !! l with
  | Some (Arr xs) => Some xs
  | _ => None
  end.

(** [xs.includes(x)] on an array of strings. *)
Definition arr_includes (xs : list string) (x : string) : bool :=
  existsb (String.eqb x) xs.

(** [if (!this.context.f.includes(m1)) { this.context.f.push(m1); }] *)
Definition pushIfNew (this : MoveAI) (f : MoveContext → loc) (m1 : string)
    (h : gmap loc object) : option (gmap loc object) :=
  c ← readCtx h (context this);
  xs ← readArr h (f c);
  if arr_includes xs m1 then Some h
  else
    c ← readCtx h (context this);
    xs ← readArr h (f c);
    Some (<[f c := Arr (xs ++ [m1])]> h).

Definition analyzeCode (this : MoveAI) (code : string) (h : gmap loc object)
  : option (gmap loc object) :=
  let fuel := S (String.length code) in
  h ← whileExec fuel moduleRegex code 0 (pushIfNew this modules) h;
  h ← whileExec fuel structRegex code 0 (pushIfNew this structs) h;
  whileExec fuel funcRegex code 0 (pushIfNew this functions) h.

(** [getContext] returns the reference held in [this.context]. *)
Definition getContext (this : MoveAI) : loc := context this.

(** What a caller sees when reading through a reference to a context
    object: the contents of the three arrays. *)
Record ContextView := {
  v_modules : list string;
  v_structs : list string;
  v_functions : list string
}.

Definition view (h : gmap loc object) (l : loc) : option ContextView :=
  c ← readCtx h l;
  ms ← readArr h (modules c);
  ss ← readArr h (structs c);
  fs ← readArr h (functions c);
  Some {| v_modules := ms; v_structs := ss; v_functions := fs |}.

(** ** The emitted [transfer]

    The [transfer] function that the Token template emits is Move code.
    Its behaviour is modelled over the global storage of [Balance]
    resources, one per address at most, with the aborts of the Move
    virtual machine: a failed [assert!], a borrow at an address without
    the resource, a [move_to] at an address that already holds it, and
    [u64] overflow. *)

Module Move.

Inductive abort :=
| AssertFailed (code : Z)
| MissingData
| ResourceAlreadyExists
| ArithmeticError.

Inductive result (A : Type) :=
| Ok (a : A)
| Aborted (e : abort).
Arguments Ok {A} a.
Arguments Aborted {A} e.

Definition bind {A B} (m : result A) (f : A → result B) : result B :=
  match m with
  | Ok a => f a
  | Aborted e => Aborted e
  end.

Notation "'let!' x := m 'in' k" := (bind m (λ x, k))
  (at level 10, x name, m at level 100, k at level 200).

Record signer := { address_of : Z }.

Record Balance := { value : Z }.

Definition u64_max : Z := 2 ^ 64 - 1.

Definition E_NOT_INITIALIZED : Z := 1.
Definition E_ALREADY_INITIALIZED : Z := 2.
Definition E_INSUFFICIENT_BALANCE : Z := 3.

Definition assert (c : bool) (code : Z) : result unit :=
  if c then Ok tt else Aborted (AssertFailed code).

Definition exists_ (g : gmap Z Balance) (a : Z) : bool :=
  match g !! a with
  | Some _ => true
  | None => false
  end.

Definition move_to (account : signer) (b : Balance) (g : gmap Z Balance)
  : result (gmap Z Balance) :=
  if exists_ g (address_of account) then Aborted ResourceAlreadyExists
  else Ok (<[address_of account := b]> g).

Definition borrow_global_mut (g : gmap Z Balance) (a : Z) : result Balance :=
  match g !! a with
  | Some b => Ok b
  | None => Aborted MissingData
  end.

Definition sub_u64 (x y : Z) : result Z :=
  if (y <=? x)%Z then Ok (x - y)%Z else Aborted ArithmeticError.

Definition add_u64 (x y : Z) : result Z :=
  if (x + y <=? u64_max)%Z then Ok (x + y)%Z else Aborted ArithmeticError.

(** [public entry fun transfer(from: &signer, to: address, amount: u64)
    acquires Balance], statement by statement. *)
Definition transfer (from : signer) (to : Z) (amount : Z) (g : gmap Z Balance)
  : result (gmap Z Balance) :=
  let from_addr := address_of from in
  let! from_balance := borrow_global_mut g from_addr in
  let! _ := assert (amount <=? value from_balance)%Z E_INSUFFICIENT_BALANCE in
  let! v := sub_u64 (value from_balance) amount in
  let g := <[from_addr := {| value := v |}]> g in
  let! g :=
    (if negb (exists_ g to) then move_to from {| value := 0 |} g else Ok g) in
  let! to_balance := borrow_global_mut g to in
  let! v := add_u64 (value to_balance) amount in
  Ok (<[to := {| value := v |}]> g).

End Move.

(** ** Vocabulary of the statements *)

(** Monadic left fold: the effect of running [body] once per element. *)
Fixpoint foldM {A St : Type} (body : A → St → option St) (xs : list A)
    (st : St) : option St :=
  match xs with
  | [] => Some st
  | x :: xs' => st' ← body x st; foldM body xs' st'
  end.

(** The captures returned by the successive [exec] calls of a loop. *)
Fixpoint execAll (fuel : nat) (r : regex) (code : string) (lastIndex : nat)
  : option (list string) :=
  match fuel with
  | 0 => None
  | S fuel' =>
      match exec r code lastIndex with
      | None => Some []
      | Some (cap, lastIndex') =>
          m1 ← cap;
          ms ← execAll fuel' r code lastIndex';
          Some (m1 :: ms)
      end
  end.

(** A lower bound on the length of every match. *)
Fixpoint minLen (r : regex) : nat :=
  match r with
  | Lit p => String.length p
  | Plus _ => 1
  | Spaces => 1
  | Opt _ => 0
  | Seq r1 r2 => minLen r1 + minLen r2
  | Group r' => minLen r'
  end.

(** The capturing group takes part in every match. *)
Fixpoint hasGroup (r : regex) : bool :=
  match r with
  | Lit _ | Plus _ | Spaces | Opt _ => false
  | Seq r1 r2 => hasGroup r1 || hasGroup r2
  | Group _ => true
  end.

(** The next character, if any, is in the class. *)
Definition ahead (cls : ascii → bool) (s : string) : bool :=
  match s with
  | EmptyString => false
  | String c _ => cls c
  end.

Fixpoint allChars (cls : ascii → bool) (s : string) : bool :=
  match s with
  | EmptyString => true
  | String c s' => cls c && allChars cls s'
  end.

(** What [pushIfNew] does to the contents of an array. *)
Definition addNew (xs : list string) (m1 : string) : list string :=
  if arr_includes xs m1 then xs else xs ++ [m1].

(** The instance's context object is [c] and its arrays hold [v]. *)
Definition holds (this : MoveAI) (h : gmap loc object) (c : MoveContext)
    (v : ContextView) : Prop :=
  readCtx h (context this) = Some c
  ∧ readArr h (modules c) = Some (v_modules v)
  ∧ readArr h (structs c) = Some (v_structs v)
  ∧ readArr h (functions c) = Some (v_functions v)
  ∧ modules c ≠ structs c ∧ modules c ≠ functions c
  ∧ structs c ≠ functions c.

Definition extends (v v' : ContextView) : Prop :=
  v_modules v `prefix_of` v_modules v'
  ∧ v_structs v `prefix_of` v_structs v'
  ∧ v_functions v `prefix_of` v_functions v'.

Definition distinct (v : ContextView) : Prop :=
  NoDup (v_modules v) ∧ NoDup (v_structs v) ∧ NoDup (v_functions v).

(** The calls a client can make on an instance. *)
Inductive call :=
| AnalyzeCode (code : string)
| GenerateCode (intent : string) (params : gmap string string)
| ExplainConcept (concept : string)
| ReviewCode (code : string)
| GetContext.

(** The effect of a call on the store; only [analyzeCode] has one. *)
Definition step (this : MoveAI) (op : call) (h : gmap loc object)
  : option (gmap loc object) :=
  match op with
  | AnalyzeCode code => analyzeCode this code h
  | GenerateCode _ _ | ExplainConcept _ | ReviewCode _ | GetContext => Some h
  end.

Definition run (this : MoveAI) (ops : list call) (h : gmap loc object)
  : option (gmap loc object) :=
  foldM (step this) ops h.

(** The text reviewed by the example at the end of the source file. *)
Definition sampleCode : string :=
"
public fun transfer(amount: u64) {
    let balance = borrow_global_mut<Balance>(addr);
}
".

(** A run of white-space characters. *)
Inductive spaceRun : string → Prop :=
| spaceRun_nil : spaceRun ""
| spaceRun_cons (w r : string) :
    In w whiteSpace → spaceRun r → spaceRun (w +:+ r).

(** The texts a pattern matches, with the capture before and after:
    [matches r w cap cap'] says that [r] can consume exactly [w] and
    turns the capture [cap] into [cap']. *)
Fixpoint matches (r : regex) (w : string) (cap cap' : option string) : Prop :=
  match r with
  | Lit p => w = p ∧ cap' = cap
  | Plus cls => w ≠ "" ∧ allChars cls w = true ∧ cap' = cap
  | Spaces => w ≠ "" ∧ spaceRun w ∧ cap' = cap
  | Opt r' => (w = "" ∧ cap' = cap) ∨ matches r' w cap cap'
  | Seq r1 r2 =>
      ∃ w1 w2 cap1,
        w = w1 +:+ w2 ∧ matches r1 w1 cap cap1 ∧ matches r2 w2 cap1 cap'
  | Group r' => (∃ cap0, matches r' w cap cap0) ∧ cap' = Some w
  end.

(** A non-empty run of word characters. *)
Definition identifier (s : string) : Prop :=
  s ≠ "" ∧ allChars isWord s = true.

(** Two identifiers joined by [::]. *)
Definition qualified (s : string) : Prop :=
  ∃ a b, s = a +:+ "::" +:+ b ∧ identifier a ∧ identifier b.

(** The intent contains one of the five keywords of [generateCode]. *)
Definition recognised (intent : string) : bool :=
  let l := toLowerCase intent in
  includes l "token" || includes l "coin" || includes l "nft"
  || includes l "marketplace" || includes l "module".

(** Every recorded name has the form its pattern captures. *)
Definition wellNamed (v : ContextView) : Prop :=
  Forall qualified (v_modules v)
  ∧ Forall identifier (v_structs v)
  ∧ Forall identifier (v_functions v).

(** ** The reviewer of the command-line file

    [src/testfile.ts] carries its own copy of the class; its [reviewCode]
    writes rule 2 as one conjunction and words the messages differently. *)

Module TestFile.

Definition warn_acquires : string :=
"‚ö†Ô∏è  Missing 'acquires' declaration".

Definition warn_key : string :=
"‚ö†Ô∏è  Resource needs 'key' ability".

Definition suggest_constants : string :=
"üí° Add error constants".

Definition no_issues : string :=
"‚úÖ Code looks good!".

Definition reviewCode (code : string) : list string :=
  let issues : list string := [] in
  let issues :=
    if includes code "borrow_global" && negb (includes code "acquires")
    then issues ++ [warn_acquires] else issues in
  let issues :=
    if includes code "move_to" && includes code "struct"
       && negb (includes code "has key")
    then issues ++ [warn_key] else issues in
  let issues :=
    if negb (includes code "const E_")
    then issues ++ [suggest_constants] else issues in
  if length issues =? 0 then [no_issues] else issues.

End TestFile.

(** The message of [src/testfile.ts] that stands for a message of
    [src/MoveAI.ts]. *)
Definition cliMessage (m : string) : string :=
  if String.eqb m warn_acquires then TestFile.warn_acquires
  else if String.eqb m warn_key then TestFile.warn_key
  else if String.eqb m suggest_constants then TestFile.suggest_constants
  else if String.eqb m no_issues then TestFile.no_issues
  else m.

(** In [ms] the name [x] occurs at a position before which, and at
    which, [y] does not occur: the first [x] comes before the first [y]. *)
Definition firstBefore (ms : list string) (x y : string) : Prop :=
  ∃ p, ms !! p = Some x ∧ ∀ q, q ≤ p → ms !! q ≠ Some y.

(** [ys] is [xs] followed by the names of [ms] that [xs] lacks, each once,
    in the order of their first occurrence in [ms]. *)
Definition appended (xs ms ys : list string) : Prop :=
  ∃ zs,
    ys = xs ++ zs
    ∧ zs `sublist_of` ms
    ∧ NoDup zs
    ∧ (∀ x, x ∈ zs ↔ x ∈ ms ∧ x ∉ xs)
    ∧ ∀ i j x y,
        zs !! i = Some x → zs !! j = Some y → i < j → firstBefore ms x y.

(** * Properties *)

(** ** Strings *)

Section StringFacts.

Lemma app_cons (c : ascii) (s t : string) :
  String c s +:+ t = String c (s +:+ t).
Proof. reflexivity. Qed.

Lemma app_empty_l (s : string) : "" +:+ s = s.
Proof. reflexivity. Qed.

Lemma app_assoc_str (a b c : string) : (a +:+ b) +:+ c = a +:+ b +:+ c.
Proof.
  induction a as [|x a IH]; [reflexivity|].
  rewrite !app_cons. f_equal. exact IH.
Qed.

Lemma startsWith_spec (s p : string) :
  startsWith s p = true ↔ ∃ r, s = p +:+ r.
Proof.
  revert s. induction p as [|a p IH]; intros s; simpl.
  - split; [intros _; by exists s|done].
  - destruct s as [|b s].
    + split; [done|]. intros [r Hr]. rewrite app_cons in Hr. discriminate.
    + rewrite andb_true_iff, Ascii.eqb_eq, IH. split.
      * intros [-> [r ->]]. exists r. by rewrite app_cons.
      * intros [r Hr]. rewrite app_cons in Hr. injection Hr as -> ->. eauto.
Qed.

Lemma includes_spec (s sub : string) :
  includes s sub = true ↔ ∃ a b, s = a +:+ sub +:+ b.
Proof.
  induction s as [|c s IH]; simpl.
  - rewrite orb_false_r, startsWith_spec. split.
    + intros [r Hr]. by exists "", r.
    + intros [[|x a] [b Hb]]; [by exists b|]. rewrite app_cons in Hb. discriminate.
  - rewrite orb_true_iff, startsWith_spec, IH. split.
    + intros [[r Hr]|(a & b & ->)].
      * by exists "", r.
      * exists (String c a), b. by rewrite app_cons.
    + intros [[|x a] [b Hb]].
      * left. by exists b.
      * right. rewrite app_cons in Hb. injection Hb as -> ->. eauto.
Qed.

Lemma includes_app_r (p s sub : string) :
  includes s sub = true → includes (p +:+ s) sub = true.
Proof.
  rewrite !includes_spec. intros (a & b & ->).
  exists (p +:+ a), b. by rewrite app_assoc_str.
Qed.

Lemma includes_app_l (s q sub : string) :
  includes s sub = true → includes (s +:+ q) sub = true.
Proof.
  rewrite !includes_spec. intros (a & b & ->).
  exists a, (b +:+ q). by rewrite !app_assoc_str.
Qed.

Lemma includes_trans (s t u : string) :
  includes s t = true → includes t u = true → includes s u = true.
Proof.
  rewrite !includes_spec. intros (a & b & ->) (c & d & ->).
  exists (a +:+ c), (d +:+ b). by rewrite !app_assoc_str.
Qed.

End StringFacts.

(** ** Generation *)

Section Generation.

Implicit Types (intent : string) (params : gmap string string).

Lemma header_body_inj (address n1 n2 b1 b2 : string) :
  header address n1 +:+ b1 = header address n2 +:+ b2 →
  n1 +:+ b1 = n2 +:+ b2.
Proof.
  unfold header. rewrite !app_assoc_str. intros H.
  by do 3 apply (inj (String.app _)) in H.
Qed.

Lemma token_ne_nft params :
  generateTokenContract params ≠ generateNFTContract params.
Proof.
  unfold generateTokenContract, generateNFTContract. intros H.
  apply header_body_inj in H.
  destruct (params !! "name") as [[|c n]|]; simpl in H.
  - vm_compute in H. discriminate H.
  - apply (inj (String.app _)) in H. vm_compute in H. discriminate H.
  - vm_compute in H. discriminate H.
Qed.

(** C2. [generateCode] is a first-match chain over the lower-cased
    intent: token or coin, then nft, then marketplace, then module.  An
    intent whose lower-cased form contains both "token" and "nft" gets
    the Token generator's output, which is never the NFT generator's. *)
Theorem generateCode_first_match intent params :
  let l := toLowerCase intent in
  (includes l "token" = true ∨ includes l "coin" = true →
     generateCode intent params = generateTokenContract params)
  ∧ (includes l "token" = false → includes l "coin" = false →
     includes l "nft" = true →
     generateCode intent params = generateNFTContract params)
  ∧ (includes l "token" = false → includes l "coin" = false →
     includes l "nft" = false → includes l "marketplace" = true →
     generateCode intent params = generateMarketplace params)
  ∧ (includes l "token" = false → includes l "coin" = false →
     includes l "nft" = false → includes l "marketplace" = false →
     includes l "module" = true →
     generateCode intent params = generateModule params)
  ∧ (includes l "token" = true → includes l "nft" = true →
     generateCode intent params = generateTokenContract params
     ∧ generateCode intent params ≠ generateNFTContract params).
Proof.
  intros l. unfold generateCode. fold l.
  split; [|split; [|split; [|split]]].
  - intros [-> | ->]; [done|]. by rewrite orb_true_r.
  - by intros -> -> ->.
  - by intros -> -> -> ->.
  - by intros -> -> -> -> ->.
  - intros -> _. split; [done|apply token_ne_nft].
Qed.

Lemma generateCode_first_match_witness :
  generateCode "Create a Token NFT" ∅ = generateTokenContract ∅
  ∧ generateCode "Create a Token NFT" ∅ ≠ generateNFTContract ∅.
Proof.
  apply (generateCode_first_match "Create a Token NFT" ∅); reflexivity.
Defined.

(** C3. An intent whose lower-cased form contains none of the five
    keywords yields the fixed fallback string, whatever the parameters;
    [generateCode] is a total function, so nothing is thrown. *)
Theorem generateCode_fallback intent params :
  includes (toLowerCase intent) "token" = false →
  includes (toLowerCase intent) "coin" = false →
  includes (toLowerCase intent) "nft" = false →
  includes (toLowerCase intent) "marketplace" = false →
  includes (toLowerCase intent) "module" = false →
  generateCode intent params = fallback.
Proof. unfold generateCode. by intros -> -> -> -> ->. Qed.

Lemma generateCode_fallback_witness :
  generateCode "do my homework" {[ "name" := "X" ]} = fallback.
Proof.
  apply (generateCode_fallback "do my homework" {[ "name" := "X" ]});
    reflexivity.
Defined.



Lemma token_contains_transfer params :
  includes (generateTokenContract params) transfer_text = true.
Proof.
  unfold generateTokenContract. apply includes_app_r. by vm_compute.
Qed.

End Generation.

(** ** The emitted [transfer] *)

Section Transfer.
Import Move.

Implicit Types (from : signer) (g : gmap Z Balance).

Lemma transfer_insufficient from to amount g b :
  g !! address_of from = Some b →
  (value b < amount)%Z →
  transfer from to amount g = Aborted (AssertFailed E_INSUFFICIENT_BALANCE).
Proof.
  intros Hb Hlt. unfold transfer, borrow_global_mut. rewrite Hb. simpl.
  by rewrite (proj2 (Z.leb_gt _ _) Hlt).
Qed.

Lemma transfer_existing from to amount g b c :
  g !! address_of from = Some b →
  g !! to = Some c →
  address_of from ≠ to →
  (amount ≤ value b)%Z →
  (value c + amount ≤ u64_max)%Z →
  transfer from to amount g
  = Ok (<[to := {| value := value c + amount |}]>
          (<[address_of from := {| value := value b - amount |}]> g)).
Proof.
  intros Hb Hc Hne Hle Hmax.
  unfold transfer, borrow_global_mut, sub_u64, add_u64, exists_.
  rewrite Hb. simpl. rewrite (proj2 (Z.leb_le _ _) Hle). simpl.
  do 2 (rewrite lookup_insert_ne, Hc by done; simpl).
  by rewrite (proj2 (Z.leb_le _ _) Hmax).
Qed.

(** The recipient has no [Balance] yet: [move_to(from, ...)] targets the
    sender's address, which holds one, so the transfer aborts. *)
Lemma transfer_first_time from to amount g b :
  g !! address_of from = Some b →
  g !! to = None →
  (amount ≤ value b)%Z →
  transfer from to amount g = Aborted ResourceAlreadyExists.
Proof.
  intros Hb Hto Hle.
  assert (address_of from ≠ to) as Hne by congruence.
  unfold transfer, borrow_global_mut, sub_u64, move_to, exists_.
  rewrite Hb. simpl. rewrite (proj2 (Z.leb_le _ _) Hle). simpl.
  rewrite lookup_insert_ne, Hto by done. simpl.
  by rewrite lookup_insert_eq.
Qed.

(** C1. Every output of the Token generator carries the [transfer]
    function verbatim.  With a sender at address 1 holding 10 and a
    recipient at address 2 holding no [Balance], a transfer of 3 aborts
    with "resource already exists" instead of creating the recipient's
    balance, while insufficient funds abort with the error constant and
    a transfer between two existing balances debits and credits. *)
Theorem token_transfer_behaviour :
  (∀ params, includes (generateTokenContract params) transfer_text = true)
  ∧ transfer {| address_of := 1 |} 2 3 {[ 1%Z := {| value := 10 |} ]}
    = Aborted ResourceAlreadyExists
  ∧ transfer {| address_of := 1 |} 2 11
      {[ 1%Z := {| value := 10 |}; 2%Z := {| value := 0 |} ]}
    = Aborted (AssertFailed E_INSUFFICIENT_BALANCE)
  ∧ transfer {| address_of := 1 |} 2 3
      {[ 1%Z := {| value := 10 |}; 2%Z := {| value := 5 |} ]}
    = Ok (<[ 2%Z := {| value := 8 |} ]>
            (<[ 1%Z := {| value := 7 |} ]>
               {[ 1%Z := {| value := 10 |}; 2%Z := {| value := 5 |} ]})).
Proof.
  split; [apply token_contains_transfer|]. split; [|split].
  - by apply (transfer_first_time _ _ _ _ {| value := 10 |}).
  - by apply (transfer_insufficient _ _ _ _ {| value := 10 |}).
  - by vm_compute.
Qed.

End Transfer.

(** ** Review *)

Section Review.

Implicit Types code : string.

(** A mutable borrow is also a match for the shorter name that rule 1
    looks for. *)
Lemma includes_borrow_global code :
  includes code "borrow_global_mut" = true →
  includes code "borrow_global" = true.
Proof. intros H. by apply (includes_trans _ _ _ H). Qed.

(** C6 as stated fails: nothing keeps rule 2 from firing as well. *)
Lemma reviewCode_three_findings :
  let code := "borrow_global_mut move_to struct" in
  includes code "borrow_global_mut" = true
  ∧ includes code "acquires" = false
  ∧ includes code "const E_" = false
  ∧ reviewCode code = [warn_acquires; warn_key; suggest_constants]
  ∧ reviewCode code ≠ [warn_acquires; suggest_constants].
Proof. by vm_compute. Qed.

(** C6, amended.  A source with a mutable global borrow, without
    "acquires", without "const E_" and on which rule 2 is silent gets
    exactly the acquires warning followed by the constants suggestion. *)
Theorem reviewCode_two_findings code :
  includes code "borrow_global_mut" = true →
  includes code "acquires" = false →
  includes code "const E_" = false →
  includes code "move_to" && includes code "struct"
    && negb (includes code "has key") = false →
  reviewCode code = [warn_acquires; suggest_constants].
Proof.
  intros Hb Ha He H2. unfold reviewCode.
  rewrite (includes_borrow_global _ Hb), Ha, He. simpl.
  destruct (includes code "move_to"), (includes code "struct"),
    (includes code "has key"); done.
Qed.

Lemma reviewCode_two_findings_witness :
  reviewCode sampleCode = [warn_acquires; suggest_constants].
Proof. apply (reviewCode_two_findings sampleCode); reflexivity. Defined.

(** C7. When no rule fires the result is the one confirmation message;
    that is the case for a source containing "borrow_global_mut",
    "acquires", "const E_" and "has key"; and no source is answered with
    an empty list. *)
Theorem reviewCode_confirmation code :
  (includes code "borrow_global" && negb (includes code "acquires") = false →
   includes code "move_to" && includes code "struct"
     && negb (includes code "has key") = false →
   negb (includes code "const E_") = false →
   reviewCode code = [no_issues])
  ∧ (includes code "borrow_global_mut" = true →
     includes code "acquires" = true →
     includes code "const E_" = true →
     includes code "has key" = true →
     reviewCode code = [no_issues])
  ∧ reviewCode code ≠ [].
Proof.
  unfold reviewCode. split; [|split].
  - intros -> H2 ->.
    destruct (includes code "move_to"), (includes code "struct"),
      (includes code "has key"); done.
  - intros Hb -> -> ->. rewrite (includes_borrow_global _ Hb). simpl.
    by destruct (includes code "move_to" && includes code "struct").
  - destruct (includes code "borrow_global" && negb (includes code "acquires")),
      (includes code "move_to" && includes code "struct"),
      (negb (includes code "has key")), (negb (includes code "const E_"));
      done.
Qed.

Lemma reviewCode_confirmation_witness :
  reviewCode
    "const E_X: u64 = 1; struct B has key {} fun f() acquires B { borrow_global_mut<B>(a); }"
  = [no_issues].
Proof.
  destruct (reviewCode_confirmation
    "const E_X: u64 = 1; struct B has key {} fun f() acquires B { borrow_global_mut<B>(a); }")
    as (_ & H & _).
  apply H; reflexivity.
Defined.

(** C10. With the default parameters every recognised intent produces
    code on which the reviewer finds nothing, and the fallback text gets
    the constants suggestion. *)
Theorem generated_code_passes_review (intent : string) :
  let l := toLowerCase intent in
  (includes l "token" || includes l "coin" || includes l "nft"
     || includes l "marketplace" || includes l "module" = true →
   reviewCode (generateCode intent ∅) = [no_issues])
  ∧ reviewCode fallback = [suggest_constants].
Proof.
  intros l. split; [|by vm_compute].
  unfold generateCode. fold l.
  destruct (includes l "token"); [intros _; by vm_compute|].
  destruct (includes l "coin"); [intros _; by vm_compute|].
  destruct (includes l "nft"); [intros _; by vm_compute|].
  destruct (includes l "marketplace"); [intros _; by vm_compute|].
  destruct (includes l "module"); [intros _; by vm_compute|].
  done.
Qed.

Lemma generated_code_passes_review_witness :
  reviewCode (generateCode "Create an NFT marketplace" ∅) = [no_issues].
Proof.
  destruct (generated_code_passes_review "Create an NFT marketplace")
    as [H _].
  apply H. reflexivity.
Defined.

End Review.

(** ** Concepts *)

Section Concepts.

(** C8. The lower-cased concept is tested against the keys abilities,
    resources, acquires, signer in that order and the first key it
    contains decides; "Acquires" gets the acquires text and "banana" the
    not-found text. *)
Theorem explainConcept_first_match (concept : string) :
  let l := toLowerCase concept in
  (includes l "abilities" = true → explainConcept concept = abilities_text)
  ∧ (includes l "abilities" = false → includes l "resources" = true →
     explainConcept concept = resources_text)
  ∧ (includes l "abilities" = false → includes l "resources" = false →
     includes l "acquires" = true →
     explainConcept concept = acquires_text)
  ∧ (includes l "abilities" = false → includes l "resources" = false →
     includes l "acquires" = false → includes l "signer" = true →
     explainConcept concept = signer_text)
  ∧ (includes l "abilities" = false → includes l "resources" = false →
     includes l "acquires" = false → includes l "signer" = false →
     explainConcept concept = concept_not_found)
  ∧ explainConcept "Acquires" = acquires_text
  ∧ explainConcept "banana" = concept_not_found.
Proof.
  intros l. unfold explainConcept. fold l. simpl.
  split; [|split; [|split; [|split; [|split; [|split]]]]].
  - by intros ->.
  - by intros -> ->.
  - by intros -> -> ->.
  - by intros -> -> -> ->.
  - by intros -> -> -> ->.
  - by vm_compute.
  - by vm_compute.
Qed.

Lemma explainConcept_first_match_witness :
  explainConcept "the SIGNER a function Acquires" = acquires_text.
Proof.
  destruct (explainConcept_first_match "the SIGNER a function Acquires")
    as (_ & _ & H & _).
  apply H; reflexivity.
Defined.

End Concepts.

(** ** Scanning *)

Section Scanning.

Lemma dropPrefix_length (p s rest : string) :
  dropPrefix p s = Some rest →
  String.length s = String.length p + String.length rest.
Proof.
  revert s. induction p as [|a p IH]; intros s; simpl.
  - by intros [= ->].
  - destruct s as [|b s]; [done|].
    destruct (Ascii.eqb a b); [|done]. intros H. simpl. by rewrite (IH _ H).
Qed.

Lemma dropStr_length (n : nat) (s : string) :
  String.length (dropStr n s) = String.length s - n.
Proof.
  revert s. induction n as [|n IH]; intros [|c s]; simpl; auto.
Qed.

Lemma plus_inv {R} cls s (k : string → option R) res :
  plus cls s k = Some res →
  ∃ rest, k rest = Some res ∧ String.length rest + 1 ≤ String.length s.
Proof.
  induction s as [|c s IH]; simpl; [done|].
  destruct (cls c); [|done].
  destruct (plus cls s k) as [res'|] eqn:E.
  - intros [= ->]. destruct (IH eq_refl) as (rest & Hk & Hlen).
    exists rest. split; [done|lia].
  - intros Hk. exists s. split; [done|lia].
Qed.

Lemma spacesFrom_inv {R} n s (k : string → option R) res :
  spacesFrom n s k = Some res →
  ∃ rest, k rest = Some res ∧ String.length rest ≤ String.length s.
Proof.
  revert n. induction s as [|c s IH]; intros n.
  - destruct n; simpl; [|done]. intros Hk. exists "". split; [|done].
    by destruct (spaceLen "").
  - destruct n as [|n]; cbn [spacesFrom].
    + destruct (spaceLen (String c s)) as [|m];
        [intros Hk; exists (String c s); by split|].
      destruct (spacesFrom m s k) as [res'|] eqn:E.
      * intros [= ->]. destruct (IH _ E) as (rest & Hk & Hlen).
        exists rest. split; [done|]. simpl. lia.
      * intros Hk. exists (String c s). by split.
    + intros (rest & Hk & Hlen)%IH. exists rest. split; [done|]. simpl. lia.
Qed.

Lemma spaces_inv {R} s (k : string → option R) res :
  spaces s k = Some res →
  ∃ rest, k rest = Some res ∧ String.length rest + 1 ≤ String.length s.
Proof.
  unfold spaces. destruct (spaceLen s) as [|n]; [done|].
  destruct s as [|c s]; [done|].
  intros (rest & Hk & Hlen)%spacesFrom_inv. exists rest. split; [done|].
  simpl. lia.
Qed.

Lemma bt_inv {R} r s cap (k : string → option string → option R) res :
  bt r s cap k = Some res →
  ∃ rest cap',
    k rest cap' = Some res
    ∧ String.length rest + minLen r ≤ String.length s
    ∧ (hasGroup r = true ∨ is_Some cap → is_Some cap').
Proof.
  revert s cap k.
  induction r as [p|cls| |r IH|r1 IH1 r2 IH2|r IH]; intros s cap k; simpl.
  - destruct (dropPrefix p s) as [rest|] eqn:E; [|done].
    intros Hk. exists rest, cap. apply dropPrefix_length in E.
    split; [done|]. split; [lia|]. by intros [|].
  - intros (rest & Hk & Hlen)%plus_inv. exists rest, cap.
    split; [done|]. split; [lia|]. by intros [|].
  - intros (rest & Hk & Hlen)%spaces_inv. exists rest, cap.
    split; [done|]. split; [lia|]. by intros [|].
  - destruct (bt r s cap k) as [res'|] eqn:E.
    + intros [= ->]. destruct (IH _ _ _ E) as (rest & cap' & Hk & Hlen & Hc).
      exists rest, cap'. split; [done|]. split; [lia|].
      intros [|]; [done|]. apply Hc. by right.
    + intros Hk. exists s, cap. split; [done|]. split; [lia|]. by intros [|].
  - intros (rest1 & cap1 & H1 & Hlen1 & Hc1)%IH1.
    apply IH2 in H1 as (rest2 & cap2 & H2 & Hlen2 & Hc2).
    exists rest2, cap2. split; [done|]. split; [lia|].
    intros [[Hg|Hg]%orb_true_iff|Hcap].
    + apply Hc2. right. apply Hc1. by left.
    + apply Hc2. by left.
    + apply Hc2. right. apply Hc1. by right.
  - intros (rest & cap' & Hk & Hlen & _)%IH.
    eexists rest, _. split; [exact Hk|]. split; [lia|]. by intros _.
Qed.

Lemma search_inv r s cap rest :
  search r s = Some (cap, rest) →
  String.length rest + minLen r ≤ String.length s
  ∧ (hasGroup r = true → is_Some cap).
Proof.
  induction s as [|c s IH]; simpl.
  - destruct (bt r "" None _) as [m|] eqn:E; [|done].
    intros [= ->]. apply bt_inv in E as (rest' & cap' & [= <- <-] & Hlen & Hc).
    split; [done|]. intros ?. apply Hc. by left.
  - destruct (bt r (String c s) None _) as [m|] eqn:E.
    + intros [= ->].
      apply bt_inv in E as (rest' & cap' & [= <- <-] & Hlen & Hc).
      split; [done|]. intros ?. apply Hc. by left.
    + intros [Hlen Hc]%IH. split; [lia|done].
Qed.

Lemma exec_inv r code i cap i' :
  exec r code i = Some (cap, i') →
  i + minLen r ≤ i' ∧ i' ≤ String.length code
  ∧ (hasGroup r = true → is_Some cap).
Proof.
  unfold exec. destruct (Nat.ltb_spec (String.length code) i) as [|Hi]; [done|].
  destruct (search r (dropStr i code)) as [[cap0 rest]|] eqn:E; [|done].
  intros [= <- <-]. apply search_inv in E as [Hlen Hc].
  rewrite dropStr_length in Hlen. split; [lia|]. split; [lia|done].
Qed.

Lemma execAll_total fuel r code i :
  1 ≤ minLen r → hasGroup r = true →
  i ≤ String.length code < fuel + i →
  ∃ ms, execAll fuel r code i = Some ms.
Proof.
  intros Hmin Hgrp. revert i.
  induction fuel as [|fuel IH]; intros i Hfuel; simpl; [lia|].
  destruct (exec r code i) as [[cap i']|] eqn:E; [|by eexists].
    apply exec_inv in E as (Hlo & Hhi & Hc).
    destruct (Hc Hgrp) as [m1 ->]. simpl.
    destruct (IH i') as [ms ->]; [lia|]. by eexists.
Qed.

Lemma whileExec_execAll {St} fuel r code i (body : string → St → option St)
    st ms :
  execAll fuel r code i = Some ms →
  whileExec fuel r code i body st = foldM body ms st.
Proof.
  revert i st ms. induction fuel as [|fuel IH]; intros i st ms; simpl; [done|].
  destruct (exec r code i) as [[[m1|] i']|]; simpl; [|done|by intros [= <-]].
  destruct (execAll fuel r code i') as [ms'|] eqn:E; simpl; [|done].
  intros [= <-]. simpl. destruct (body m1 st) as [st'|]; simpl; [|done].
  by apply IH.
Qed.

End Scanning.

(** ** The context *)

Section Context.

Implicit Types (this : MoveAI) (h : gmap loc object) (c : MoveContext)
  (v : ContextView) (xs ms : list string).

Lemma arr_includes_spec xs x : arr_includes xs x = true ↔ x ∈ xs.
Proof.
  unfold arr_includes. rewrite existsb_exists. split.
  - intros (y & Hy%list_elem_of_In & ->%String.eqb_eq). done.
  - intros Hx. exists x. rewrite String.eqb_refl.
    split; [by apply list_elem_of_In|done].
Qed.

Lemma addNew_prefix xs m : xs `prefix_of` addNew xs m.
Proof.
  unfold addNew. destruct (arr_includes xs m); [done|]. by apply prefix_app_r.
Qed.

Lemma addNew_NoDup xs m : NoDup xs → NoDup (addNew xs m).
Proof.
  intros Hxs. unfold addNew. destruct (arr_includes xs m) eqn:E; [done|].
  apply NoDup_app. split; [done|]. split; [|apply NoDup_singleton].
  intros x Hx ->%list_elem_of_singleton.
  apply arr_includes_spec in Hx. congruence.
Qed.

Lemma addNew_elem xs m : m ∈ addNew xs m.
Proof.
  unfold addNew. destruct (arr_includes xs m) eqn:E.
  - by apply arr_includes_spec.
  - apply elem_of_app. right. by apply list_elem_of_singleton.
Qed.

Lemma foldl_addNew_prefix xs ms : xs `prefix_of` foldl addNew xs ms.
Proof.
  revert xs. induction ms as [|m ms IH]; intros xs; simpl; [done|].
  etrans; [apply addNew_prefix|apply IH].
Qed.

Lemma foldl_addNew_NoDup xs ms : NoDup xs → NoDup (foldl addNew xs ms).
Proof.
  revert xs. induction ms as [|m ms IH]; intros xs Hxs; simpl; [done|].
  by apply IH, addNew_NoDup.
Qed.

Lemma foldl_addNew_elem xs ms m : m ∈ ms → m ∈ foldl addNew xs ms.
Proof.
  revert xs. induction ms as [|m' ms IH]; intros xs; simpl.
  - by intros ?%elem_of_nil.
  - intros [->|Hm]%elem_of_cons; [|by apply IH].
    eapply elem_of_prefix; [apply addNew_elem|apply foldl_addNew_prefix].
Qed.

Lemma readArr_Some h l xs : readArr h l = Some xs ↔ h !! l = Some (Arr xs).
Proof.
  unfold readArr. destruct (h !! l) as [[]|]; naive_solver.
Qed.

Lemma readCtx_Some h l c : readCtx h l = Some c ↔ h !! l = Some (Ctx c).
Proof.
  unfold readCtx. destruct (h !! l) as [[]|]; naive_solver.
Qed.

Lemma pushIfNew_insert this (f : MoveContext → loc) m h c xs :
  readCtx h (context this) = Some c →
  readArr h (f c) = Some xs →
  pushIfNew this f m h = Some (<[f c := Arr (addNew xs m)]> h).
Proof.
  intros Hc Hxs. unfold pushIfNew, addNew. rewrite Hc. simpl. rewrite Hxs. simpl.
  destruct (arr_includes xs m).
  - f_equal. symmetry. by apply insert_id, readArr_Some.
  - done.
Qed.

Lemma foldM_pushIfNew this (f : MoveContext → loc) ms h c xs :
  readCtx h (context this) = Some c →
  readArr h (f c) = Some xs →
  foldM (pushIfNew this f) ms h
  = Some (<[f c := Arr (foldl addNew xs ms)]> h).
Proof.
  revert h xs. induction ms as [|m ms IH]; intros h xs Hc Hxs; simpl.
  - f_equal. symmetry. by apply insert_id, readArr_Some.
  - rewrite (pushIfNew_insert _ _ _ _ _ _ Hc Hxs). simpl.
    assert (f c ≠ context this) as Hne.
    { apply readCtx_Some in Hc. apply readArr_Some in Hxs. congruence. }
    rewrite (IH _ (addNew xs m)).
    + by rewrite insert_insert_eq.
    + apply readCtx_Some. rewrite lookup_insert_ne by done.
      by apply readCtx_Some.
    + apply readArr_Some. by rewrite lookup_insert_eq.
Qed.

Lemma holds_view this h c v : holds this h c v → view h (context this) = Some v.
Proof.
  intros (Hc & Hm & Hs & Hf & _). unfold view.
  rewrite Hc. simpl. rewrite Hm, Hs, Hf. simpl. by destruct v.
Qed.

Lemma alloc_fresh (o : object) h :
  h !! (alloc o h).1 = None ∧ (alloc o h).2 = <[(alloc o h).1 := o]> h.
Proof.
  unfold alloc. simpl. split; [|done].
  apply not_elem_of_dom, is_fresh.
Qed.

Lemma constructor_holds h :
  ∃ c, holds (constructor h).1 (constructor h).2 c
         {| v_modules := []; v_structs := []; v_functions := [] |}.
Proof.
  unfold constructor.
  destruct (alloc (Arr []) h) as [lm h1] eqn:E1.
  destruct (alloc (Arr []) h1) as [ls h2] eqn:E2.
  destruct (alloc (Arr []) h2) as [lf h3] eqn:E3.
  destruct (alloc (Ctx {| modules := lm; structs := ls; functions := lf |}) h3)
    as [lc h4] eqn:E4.
  pose proof (alloc_fresh (Arr []) h) as [F1 I1]. rewrite E1 in F1, I1.
  pose proof (alloc_fresh (Arr []) h1) as [F2 I2]. rewrite E2 in F2, I2.
  pose proof (alloc_fresh (Arr []) h2) as [F3 I3]. rewrite E3 in F3, I3.
  pose proof (alloc_fresh (Ctx {| modules := lm; structs := ls; functions := lf |}) h3)
    as [F4 I4]. rewrite E4 in F4, I4.
  simpl in *. subst h1 h2 h3 h4.
  assert (ls ≠ lm) by (intros ->; by rewrite lookup_insert_eq in F2).
  assert (lf ≠ ls) by (intros ->; by rewrite lookup_insert_eq in F3).
  assert (lf ≠ lm).
  { intros ->. by rewrite lookup_insert_ne, lookup_insert_eq in F3 by done. }
  assert (lc ≠ lf) by (intros ->; by rewrite lookup_insert_eq in F4).
  assert (lc ≠ ls).
  { intros ->. by rewrite lookup_insert_ne, lookup_insert_eq in F4 by done. }
  assert (lc ≠ lm).
  { intros ->. by rewrite !lookup_insert_ne, lookup_insert_eq in F4 by done. }
  eexists. unfold holds. rewrite readCtx_Some, !readArr_Some. simpl.
  split; [by rewrite lookup_insert_eq|]. simpl.
  split; [by rewrite !lookup_insert_ne, lookup_insert_eq by done|].
  split; [by rewrite !lookup_insert_ne, lookup_insert_eq by done|].
  split; [by rewrite lookup_insert_ne, lookup_insert_eq by done|].
  done.
Qed.

Lemma analyzeCode_holds this code h c v :
  holds this h c v →
  ∃ ms ss fs h',
    execAll (S (String.length code)) moduleRegex code 0 = Some ms
    ∧ execAll (S (String.length code)) structRegex code 0 = Some ss
    ∧ execAll (S (String.length code)) funcRegex code 0 = Some fs
    ∧ analyzeCode this code h = Some h'
    ∧ holds this h' c
        {| v_modules := foldl addNew (v_modules v) ms;
           v_structs := foldl addNew (v_structs v) ss;
           v_functions := foldl addNew (v_functions v) fs |}.
Proof.
  intros (Hc & Hm & Hs & Hf & Hms & Hmf & Hsf).
  destruct (execAll_total (S (String.length code)) moduleRegex code 0)
    as [ms Ems]; [simpl; lia|done|lia|].
  destruct (execAll_total (S (String.length code)) structRegex code 0)
    as [ss Ess]; [simpl; lia|done|lia|].
  destruct (execAll_total (S (String.length code)) funcRegex code 0)
    as [fs Efs]; [simpl; lia|done|lia|].
  exists ms, ss, fs. eexists. do 3 (split; [done|]).
  pose proof Hc as Hc'. pose proof Hm as Hm'. pose proof Hs as Hs'.
  pose proof Hf as Hf'.
  apply readCtx_Some in Hc'. apply readArr_Some in Hm', Hs', Hf'.
  assert (modules c ≠ context this) by congruence.
  assert (structs c ≠ context this) by congruence.
  assert (functions c ≠ context this) by congruence.
  unfold analyzeCode.
  rewrite (whileExec_execAll _ _ _ _ _ _ _ Ems).
  rewrite (foldM_pushIfNew _ _ _ _ _ _ Hc Hm). cbn [mbind option_bind].
  rewrite (whileExec_execAll _ _ _ _ _ _ _ Ess).
  rewrite (foldM_pushIfNew _ structs _ _ c (v_structs v));
    cbn [mbind option_bind].
  2: { apply readCtx_Some. by rewrite lookup_insert_ne by done. }
  2: { apply readArr_Some. by rewrite lookup_insert_ne by done. }
  rewrite (whileExec_execAll _ _ _ _ _ _ _ Efs).
  rewrite (foldM_pushIfNew _ functions _ _ c (v_functions v));
    cbn [mbind option_bind].
  2: { apply readCtx_Some. by rewrite !lookup_insert_ne by done. }
  2: { apply readArr_Some. by rewrite !lookup_insert_ne by done. }
  split; [done|].
  unfold holds. rewrite readCtx_Some, !readArr_Some. simpl.
  split; [by rewrite !lookup_insert_ne by done|].
  split; [by rewrite !lookup_insert_ne, lookup_insert_eq by done|].
  split; [by rewrite lookup_insert_ne, lookup_insert_eq by done|].
  split; [by rewrite lookup_insert_eq|].
  done.
Qed.

Global Instance extends_refl : Reflexive extends.
Proof. by intros v. Qed.

Global Instance extends_trans : Transitive extends.
Proof.
  intros v1 v2 v3 (?&?&?) (?&?&?). repeat split; by etrans.
Qed.

Lemma run_holds this ops h c v :
  holds this h c v →
  ∃ h' v', run this ops h = Some h' ∧ holds this h' c v'
           ∧ extends v v' ∧ (distinct v → distinct v').
Proof.
  revert h v. induction ops as [|op ops IH]; intros h v Hh.
  { exists h, v. split; [done|]. split; [done|]. split; [reflexivity|done]. }
  assert (∃ h1 v1, step this op h = Some h1 ∧ holds this h1 c v1
                   ∧ extends v v1 ∧ (distinct v → distinct v1))
    as (h1 & v1 & Hstep & Hh1 & Hext & Hnd).
  { destruct op; simpl;
      try (exists h, v; split; [done|]; split; [done|];
           split; [reflexivity|done]).
    destruct (analyzeCode_holds this code h c v Hh)
      as (ms & ss & fs & h1 & _ & _ & _ & Ha & Hh1).
    eexists h1, _. split; [done|]. split; [exact Hh1|].
    split; [repeat split; apply foldl_addNew_prefix|].
    intros (?&?&?). repeat split; by apply foldl_addNew_NoDup. }
  destruct (IH h1 v1 Hh1) as (h2 & v2 & Hrun & Hh2 & Hext2 & Hnd2).
  exists h2, v2. unfold run. simpl. rewrite Hstep. simpl.
  split; [exact Hrun|]. split; [done|]. split; [by etrans|]. auto.
Qed.

Lemma plus_stops {R} cls s (k : string → option R) :
  ahead cls s = false → plus cls s k = None.
Proof. destruct s as [|c s]; simpl; [done|]. by intros ->. Qed.

(** A greedy [+] over a run of class characters that ends before [rest]
    hands [rest] to its continuation first. *)
Lemma plus_greedy {R} cls w rest (k : string → option R) res :
  w ≠ "" → allChars cls w = true → ahead cls rest = false →
  k rest = Some res →
  plus cls (w +:+ rest) k = Some res.
Proof.
  intros Hw Hall Hrest Hk. induction w as [|c w IH]; [done|].
  apply andb_true_iff in Hall as [Hc Hall].
  rewrite app_cons. simpl. rewrite Hc.
  destruct w as [|c' w].
  - rewrite app_empty_l, (plus_stops _ _ _ Hrest). done.
  - by rewrite IH.
Qed.

Lemma spacesFrom_stops {R} s (k : string → option R) :
  spaceLen s = 0 → spacesFrom 0 s k = k s.
Proof. intros H. destruct s; cbn [spacesFrom]; by rewrite H. Qed.

(** One space before a text that does not start with white space. *)
Lemma spaces_one {R} rest (k : string → option R) res :
  spaceLen rest = 0 → k rest = Some res →
  spaces (" " +:+ rest) k = Some res.
Proof.
  intros Hrest Hk. change (" " +:+ rest) with (String " " rest).
  unfold spaces. change (spaceLen (String " " rest)) with 1. cbv beta iota.
  by rewrite spacesFrom_stops.
Qed.

Lemma dropPrefix_app p s : dropPrefix p (p +:+ s) = Some s.
Proof.
  induction p as [|a p IH]; [done|].
  rewrite app_cons. simpl. by rewrite Ascii.eqb_refl.
Qed.

Lemma length_app_str (a b : string) :
  String.length (a +:+ b) = String.length a + String.length b.
Proof.
  induction a as [|x a IH]; [done|]. rewrite app_cons. simpl. by rewrite IH.
Qed.

Lemma takeStr_app w rest :
  takeStr (String.length (w +:+ rest) - String.length rest) (w +:+ rest) = w.
Proof.
  rewrite length_app_str.
  replace (String.length w + String.length rest - String.length rest)
    with (String.length w) by lia.
  induction w as [|c w IH].
  - rewrite app_empty_l. by destruct rest.
  - rewrite app_cons. simpl. by rewrite IH.
Qed.

Lemma search_here r s m :
  bt r s None (λ rest cap, Some (cap, rest)) = Some m → search r s = Some m.
Proof. intros H. destruct s; simpl; by rewrite H. Qed.

Lemma bt_module_Foo (rest : string) :
  ahead isWord rest = false →
  bt moduleRegex ("module 0x1::Foo" +:+ rest) None (λ rest cap, Some (cap, rest))
  = Some (Some "0x1::Foo", rest).
Proof.
  intros Hw.
  change ("module 0x1::Foo" +:+ rest)
    with ("module" +:+ " " +:+ "0x1" +:+ "::" +:+ "Foo" +:+ rest).
  unfold moduleRegex. cbn [bt]. rewrite dropPrefix_app.
  apply spaces_one; [done|].
  apply plus_greedy; [done..|].
  rewrite dropPrefix_app.
  apply plus_greedy; [done..|].
  change ("0x1" +:+ "::" +:+ "Foo" +:+ rest) with ("0x1::Foo" +:+ rest).
  by rewrite takeStr_app.
Qed.

Lemma exec_module_Foo (rest : string) :
  ahead isWord rest = false →
  exec moduleRegex ("module 0x1::Foo" +:+ rest) 0
  = Some (Some "0x1::Foo", 15).
Proof.
  intros Hw. unfold exec.
  destruct (Nat.ltb_spec (String.length ("module 0x1::Foo" +:+ rest)) 0); [lia|].
  cbn [dropStr]. rewrite (search_here _ _ _ (bt_module_Foo rest Hw)).
  rewrite length_app_str. do 2 f_equal. simpl. lia.
Qed.

Lemma execAll_module_Foo (rest : string) :
  ahead isWord rest = false →
  ∃ ms,
    execAll (S (String.length ("module 0x1::Foo" +:+ rest))) moduleRegex
      ("module 0x1::Foo" +:+ rest) 0
    = Some ("0x1::Foo" :: ms).
Proof.
  intros Hw. cbn [execAll]. rewrite (exec_module_Foo rest Hw).
  destruct (execAll_total (String.length ("module 0x1::Foo" +:+ rest))
              moduleRegex ("module 0x1::Foo" +:+ rest) 15)
    as [ms ->]; [simpl; lia|done| |by eexists].
  rewrite length_app_str. simpl. lia.
Qed.

Lemma NoDup_count_one (xs : list string) (x : string) :
  NoDup xs → x ∈ xs → count_occ String.eq_dec xs x = 1.
Proof.
  intros Hnd Hx.
  apply NoDup_ListNoDup in Hnd. apply list_elem_of_In in Hx.
  pose proof (proj1 (NoDup_count_occ String.eq_dec xs) Hnd x).
  pose proof (proj1 (count_occ_In String.eq_dec xs x) Hx).
  lia.
Qed.

(** C4 as stated fails: the value that [getContext] returned before an
    [analyzeCode] call reads differently after it. *)
Lemma getContext_not_a_snapshot :
  ∃ h1,
    analyzeCode (constructor ∅).1 "module 0x1::Foo" (constructor ∅).2 = Some h1
    ∧ view (constructor ∅).2 (getContext (constructor ∅).1)
      = Some {| v_modules := []; v_structs := []; v_functions := [] |}
    ∧ view h1 (getContext (constructor ∅).1)
      = Some {| v_modules := ["0x1::Foo"]; v_structs := []; v_functions := [] |}
    ∧ view h1 (getContext (constructor ∅).1)
      ≠ view (constructor ∅).2 (getContext (constructor ∅).1).
Proof.
  eexists. split; [by vm_compute|]. by vm_compute.
Qed.

(** C4, amended.  [getContext] returns the reference to the live context
    object.  Whatever calls came before, reading through that reference
    after a later [analyzeCode] yields the context as that call left it:
    each array extended, in order, by the captured names it lacked. *)
Theorem getContext_alias (h : gmap loc object) (ops : list call)
    (code : string) :
  let this := (constructor h).1 in
  ∃ h1 v1 ms ss fs h2,
    run this ops (constructor h).2 = Some h1
    ∧ view h1 (getContext this) = Some v1
    ∧ execAll (S (String.length code)) moduleRegex code 0 = Some ms
    ∧ execAll (S (String.length code)) structRegex code 0 = Some ss
    ∧ execAll (S (String.length code)) funcRegex code 0 = Some fs
    ∧ analyzeCode this code h1 = Some h2
    ∧ view h2 (getContext this)
      = Some {| v_modules := foldl addNew (v_modules v1) ms;
                v_structs := foldl addNew (v_structs v1) ss;
                v_functions := foldl addNew (v_functions v1) fs |}.
Proof.
  intros this. destruct (constructor_holds h) as [c H0]. fold this in H0.
  destruct (run_holds this ops _ c _ H0) as (h1 & v1 & Hrun & H1 & _ & _).
  destruct (analyzeCode_holds this code h1 c v1 H1)
    as (ms & ss & fs & h2 & Hm & Hs & Hf & Ha & H2).
  exists h1, v1, ms, ss, fs, h2. unfold getContext.
  repeat (split; [done || by eapply holds_view|]). by eapply holds_view.
Qed.

(** C5 as stated fails: a text can contain "module 0x1::Foo" and leave
    no entry equal to "0x1::Foo". *)
Lemma module_Foobar_not_Foo :
  includes "module 0x1::Foobar" "module 0x1::Foo" = true
  ∧ (run (constructor ∅).1
       [AnalyzeCode "module 0x1::Foobar"; AnalyzeCode "module 0x1::Foobar"]
       (constructor ∅).2
     ≫= λ h, view h (context (constructor ∅).1))
    = Some {| v_modules := ["0x1::Foobar"]; v_structs := []; v_functions := [] |}
  ∧ count_occ String.eq_dec ["0x1::Foobar"] "0x1::Foo" = 0.
Proof. by vm_compute. Qed.

(** A name captured by the module pattern is, after two [analyzeCode]
    calls on the text, held exactly once. *)
Lemma analyze_twice_count this h c v code ms (x : string) :
  holds this h c v → distinct v →
  execAll (S (String.length code)) moduleRegex code 0 = Some ms →
  x ∈ ms →
  ∃ h3 v3,
    run this [AnalyzeCode code; AnalyzeCode code] h = Some h3
    ∧ view h3 (context this) = Some v3
    ∧ count_occ String.eq_dec (v_modules v3) x = 1.
Proof.
  intros Hh Hv Hms Hx.
  destruct (analyzeCode_holds this code h c v Hh)
    as (ms0 & ss & fs & h' & Hm & _ & _ & Ha & H').
  rewrite Hms in Hm. injection Hm as <-.
  destruct (run_holds this [AnalyzeCode code] _ c _ H')
    as (h3 & v3 & Hrun3 & H3 & (Hpre & _ & _) & Hnd3).
  exists h3, v3. split.
  { unfold run in *. cbn [foldM step] in *. rewrite Ha. exact Hrun3. }
  split; [by eapply holds_view|].
  apply NoDup_count_one.
  - apply Hnd3. destruct Hv as (?&?&?).
    repeat split; by apply foldl_addNew_NoDup.
  - eapply elem_of_prefix; [|exact Hpre]. cbn [v_modules].
    by apply foldl_addNew_elem.
Qed.

(** C5, amended.  Along any sequence of calls on a fresh instance the
    three arrays only grow at the end and hold no string twice.  Two
    [analyzeCode] calls on a text in which the module pattern captures
    "0x1::Foo" leave exactly one entry equal to "0x1::Foo" in [modules];
    the pattern captures it in every text that starts with
    "module 0x1::Foo" followed by the end of the text or by a non-word
    character. *)
Theorem context_append_only (h : gmap loc object) (ops ops' : list call)
    (code rest : string) :
  let this := (constructor h).1 in
  ∃ h1 v1 h2 v2,
    run this ops (constructor h).2 = Some h1
    ∧ view h1 (context this) = Some v1
    ∧ run this ops' h1 = Some h2
    ∧ view h2 (context this) = Some v2
    ∧ distinct v1
    ∧ extends v1 v2
    ∧ (∀ ms,
         execAll (S (String.length code)) moduleRegex code 0 = Some ms →
         "0x1::Foo" ∈ ms →
         ∃ h3 v3,
           run this [AnalyzeCode code; AnalyzeCode code] h1 = Some h3
           ∧ view h3 (context this) = Some v3
           ∧ count_occ String.eq_dec (v_modules v3) "0x1::Foo" = 1)
    ∧ (ahead isWord rest = false →
       ∃ h3 v3,
         run this [AnalyzeCode ("module 0x1::Foo" +:+ rest);
                   AnalyzeCode ("module 0x1::Foo" +:+ rest)] h1 = Some h3
         ∧ view h3 (context this) = Some v3
         ∧ count_occ String.eq_dec (v_modules v3) "0x1::Foo" = 1).
Proof.
  intros this. destruct (constructor_holds h) as [c H0]. fold this in H0.
  destruct (run_holds this ops _ c _ H0) as (h1 & v1 & Hrun & H1 & _ & Hnd).
  destruct (run_holds this ops' _ c _ H1) as (h2 & v2 & Hrun' & H2 & Hext & _).
  assert (distinct v1) as Hv1 by (apply Hnd; repeat split; apply NoDup_nil_2).
  exists h1, v1, h2, v2.
  do 4 (split; [done || by eapply holds_view|]). do 2 (split; [done|]).
  split.
  - intros ms Hms Hx. by eapply analyze_twice_count.
  - intros Hw. destruct (execAll_module_Foo rest Hw) as [ms' Hms'].
    eapply analyze_twice_count; [done..|]. apply elem_of_cons. by left.
Qed.

Lemma context_append_only_witness :
  ∃ h3 v3,
    run (constructor ∅).1
      [AnalyzeCode ("module 0x1::Foo" +:+ " { }");
       AnalyzeCode ("module 0x1::Foo" +:+ " { }")] (constructor ∅).2 = Some h3
    ∧ view h3 (context (constructor ∅).1) = Some v3
    ∧ count_occ String.eq_dec (v_modules v3) "0x1::Foo" = 1.
Proof.
  destruct (context_append_only ∅ [] [] "" " { }")
    as (h1 & v1 & h2 & v2 & Hrun & _ & _ & _ & _ & _ & _ & H).
  injection Hrun as <-. apply H. reflexivity.
Defined.

End Context.

(** * Further properties *)

(** ** Generation, all parameters *)

Section GenerationMore.

Implicit Types (intent : string) (params : gmap string string).

Lemma or_default_idem (v : option string) (d : string) :
  d ≠ "" → or_default (Some (or_default v d)) d = or_default v d.
Proof. intros Hd. by destruct v as [[|c s]|], d. Qed.

(** X1. Each generator reads only the keys [name] and [address], and
    reads them through its defaults: its output is the output for the
    two-key mapping that holds the effective name and address. *)
Theorem generators_normal_form params :
  let a := or_default (params !! "address") "0x1" in
  generateModule params
  = generateModule
      {[ "name" := or_default (params !! "name") "MyModule"; "address" := a ]}
  ∧ generateTokenContract params
    = generateTokenContract
        {[ "name" := or_default (params !! "name") "MyToken"; "address" := a ]}
  ∧ generateNFTContract params
    = generateNFTContract
        {[ "name" := or_default (params !! "name") "MyNFT"; "address" := a ]}
  ∧ generateMarketplace params
    = generateMarketplace
        {[ "name" := or_default (params !! "name") "Marketplace"; "address" := a ]}.
Proof.
  intros a.
  unfold generateModule, generateTokenContract, generateNFTContract,
    generateMarketplace.
  rewrite !lookup_insert_eq, !(lookup_insert_ne _ "name" "address") by done.
  rewrite !lookup_singleton_eq.
  rewrite !or_default_idem by done. subst a.
  rewrite !or_default_idem by done. done.
Qed.

Lemma reviewCode_clean (code : string) :
  includes code "acquires" = true →
  includes code "has key" = true →
  includes code "const E_" = true →
  reviewCode code = [no_issues].
Proof.
  intros Ha Hk He. unfold reviewCode. rewrite Ha, Hk, He.
  rewrite andb_false_r. simpl.
  by destruct (includes code "move_to" && includes code "struct").
Qed.

(** X2. Whatever the parameters, the reviewer finds nothing in the code
    generated for a recognised intent and suggests error constants for
    the fallback text of an unrecognised one. *)
Theorem review_of_generated intent params :
  reviewCode (generateCode intent params)
  = if recognised intent then [no_issues] else [suggest_constants].
Proof.
  unfold recognised, generateCode.
  set (l := toLowerCase intent).
  assert (∀ g body, includes body "acquires" = true →
            includes body "has key" = true →
            includes body "const E_" = true →
            reviewCode (g +:+ body) = [no_issues]) as Hclean.
  { intros g body ???. apply reviewCode_clean; by apply includes_app_r. }
  destruct (includes l "token"); simpl.
  { by apply Hclean. }
  destruct (includes l "coin"); simpl.
  { by apply Hclean. }
  destruct (includes l "nft"); simpl.
  { by apply Hclean. }
  destruct (includes l "marketplace"); simpl.
  { unfold generateMarketplace.
    apply reviewCode_clean; by apply includes_app_r, includes_app_l. }
  destruct (includes l "module"); simpl.
  { by apply Hclean. }
  by vm_compute.
Qed.

Lemma fallback_not_module (address n body : string) :
  header address n +:+ body ≠ fallback.
Proof. unfold header. rewrite !app_assoc_str. by vm_compute. Qed.

(** X3. For one parameter mapping the four generators never produce the
    same text, and none of them produces the fallback text: the output of
    [generateCode] tells which branch produced it. *)
Theorem generators_distinct params :
  generateTokenContract params ≠ generateNFTContract params
  ∧ generateTokenContract params ≠ generateMarketplace params
  ∧ generateTokenContract params ≠ generateModule params
  ∧ generateNFTContract params ≠ generateMarketplace params
  ∧ generateNFTContract params ≠ generateModule params
  ∧ generateMarketplace params ≠ generateModule params
  ∧ generateTokenContract params ≠ fallback
  ∧ generateNFTContract params ≠ fallback
  ∧ generateMarketplace params ≠ fallback
  ∧ generateModule params ≠ fallback.
Proof.
  split; [apply token_ne_nft|].
  unfold generateTokenContract, generateNFTContract, generateMarketplace,
    generateModule.
  set (a := or_default (params !! "address") "0x1").
  rewrite <- !(app_assoc_str _ marketplace_body_1).
  rewrite !(app_assoc_str (header _ _) marketplace_body_1).
  repeat split; try apply fallback_not_module;
    intros H; apply header_body_inj in H;
    (destruct (params !! "name") as [[|c n]|]; simpl in H;
     [|apply (inj (String.app _)) in H|]);
    vm_compute in H; discriminate H.
Qed.











(** The Kelvin sign counts as [k]: an intent spelled TO, U+212A, EN is a
    token intent.  U+0130 becomes [i] and a combining dot, which breaks
    the keyword: CO, U+0130, N is not a coin intent. *)
Lemma generateCode_kelvin params :
  generateCode
    ("TO" +:+ String.string_of_list_ascii ["226"; "132"; "170"]%char +:+ "EN NFT")
    params
  = generateTokenContract params.
Proof. reflexivity. Qed.

Lemma generateCode_dotted_I params :
  generateCode
    ("CO" +:+ String.string_of_list_ascii ["196"; "176"]%char +:+ "N") params
  = fallback.
Proof. reflexivity. Qed.



Lemma includes_around (x y l r a : string) :
  (∃ x', x = x' +:+ l) → startsWith y r = true →
  includes (x +:+ a +:+ y) (l +:+ a +:+ r) = true.
Proof.
  intros [x' ->] [y' ->]%startsWith_spec. apply includes_spec.
  exists x', y'. by rewrite !app_assoc_str.
Qed.

(** X20. The marketplace code uses one address twice: the effective
    [address] parameter names the module in the header and is the
    address at which [create_listing] borrows the marketplace data. *)
Theorem marketplace_address params :
  let a := or_default (params !! "address") "0x1" in
  startsWith (generateMarketplace params) ("module " +:+ a +:+ "::") = true
  ∧ includes (generateMarketplace params)
      ("borrow_global_mut<MarketplaceData>(@" +:+ a +:+ ");") = true.
Proof.
  intros a. unfold generateMarketplace. fold a. split.
  - apply startsWith_spec. eexists. unfold header.
    rewrite !app_assoc_str. reflexivity.
  - apply includes_app_r, includes_around; [|by vm_compute].
    exists (takeStr (String.length marketplace_body_1 - 36) marketplace_body_1).
    by vm_compute.
Qed.

End GenerationMore.

(** ** Review and concepts, in full *)

Section ReviewMore.

Implicit Types code : string.

Ltac review_cases code :=
  unfold reviewCode;
  destruct (includes code "borrow_global"), (includes code "acquires"),
    (includes code "move_to"), (includes code "struct"),
    (includes code "has key"), (includes code "const E_");
  simpl.

(** X5. Each finding is present exactly when its rule fires, and the
    confirmation is returned exactly when no rule fires. *)
Theorem reviewCode_findings code :
  (arr_includes (reviewCode code) warn_acquires = true
   ↔ includes code "borrow_global" = true ∧ includes code "acquires" = false)
  ∧ (arr_includes (reviewCode code) warn_key = true
     ↔ includes code "move_to" = true ∧ includes code "struct" = true
       ∧ includes code "has key" = false)
  ∧ (arr_includes (reviewCode code) suggest_constants = true
     ↔ includes code "const E_" = false)
  ∧ (arr_includes (reviewCode code) no_issues = true
     ↔ reviewCode code = [no_issues])
  ∧ (reviewCode code = [no_issues]
     ↔ (includes code "borrow_global" = false ∨ includes code "acquires" = true)
       ∧ (includes code "move_to" = false ∨ includes code "struct" = false
          ∨ includes code "has key" = true)
       ∧ includes code "const E_" = true).
Proof.
  review_cases code; vm_compute; intuition congruence.
Qed.

Lemma reviewCode_findings_witness :
  arr_includes (reviewCode sampleCode) warn_acquires = true.
Proof.
  destruct (reviewCode_findings sampleCode) as [H _].
  apply H. by vm_compute.
Defined.

(** X6. The result is never empty and never longer than three; it is
    either the confirmation alone or a selection of the three findings in
    rule order. *)
Theorem reviewCode_shape code :
  1 ≤ length (reviewCode code) ≤ 3
  ∧ (reviewCode code = [no_issues]
     ∨ reviewCode code `sublist_of` [warn_acquires; warn_key; suggest_constants]).
Proof.
  review_cases code; (split; [lia|]);
    first [ by left
          | right;
            repeat first [ apply sublist_nil | apply sublist_skip
                         | apply sublist_cons ] ].
Qed.

(** X7. [explainConcept] answers with the not-found text exactly when
    the lower-cased concept contains none of the four keys, and otherwise
    with one of the four explanations. *)
Theorem explainConcept_not_found (concept : string) :
  let l := toLowerCase concept in
  (explainConcept concept = concept_not_found
   ↔ includes l "abilities" = false ∧ includes l "resources" = false
     ∧ includes l "acquires" = false ∧ includes l "signer" = false)
  ∧ arr_includes
      [abilities_text; resources_text; acquires_text; signer_text;
       concept_not_found]
      (explainConcept concept) = true.
Proof.
  intros l. unfold explainConcept. fold l. simpl.
  destruct (includes l "abilities"), (includes l "resources"),
    (includes l "acquires"), (includes l "signer");
    vm_compute; intuition congruence.
Qed.

Lemma explainConcept_not_found_witness :
  explainConcept "banana bread" = concept_not_found.
Proof.
  destruct (explainConcept_not_found "banana bread") as [H _].
  apply H. by vm_compute.
Defined.

End ReviewMore.

(** ** What the patterns capture *)

Section Captures.

Lemma dropPrefix_Some (p s rest : string) :
  dropPrefix p s = Some rest → s = p +:+ rest.
Proof.
  revert s. induction p as [|a p IH]; intros s; simpl.
  - by intros [= ->].
  - destruct s as [|b s]; [done|].
    destruct (Ascii.eqb_spec a b) as [->|]; [|done].
    intros ->%IH. by rewrite app_cons.
Qed.

Lemma plus_sound {R} cls s (k : string → option R) res :
  plus cls s k = Some res →
  ∃ w rest,
    s = w +:+ rest ∧ w ≠ "" ∧ allChars cls w = true ∧ k rest = Some res.
Proof.
  induction s as [|c s IH]; simpl; [done|].
  destruct (cls c) eqn:Hc; [|done].
  destruct (plus cls s k) as [res'|] eqn:E.
  - intros [= ->]. destruct (IH eq_refl) as (w & rest & -> & _ & Hall & Hk).
    exists (String c w), rest. rewrite app_cons. simpl. by rewrite Hc, Hall.
  - intros Hk. exists (String c ""), s. simpl. by rewrite Hc.
Qed.

Lemma spaceLen_Some (s : string) (n : nat) :
  spaceLen s = S n →
  ∃ w rest, In w whiteSpace ∧ s = w +:+ rest ∧ String.length w = S n.
Proof.
  unfold spaceLen. destruct (List.find (startsWith s) whiteSpace) as [w|] eqn:E;
    [|done].
  apply find_some in E as [Hin [rest ->]%startsWith_spec].
  intros Hlen. by exists w, rest.
Qed.

Lemma dropStr_app_length (w rest : string) :
  dropStr (String.length w) (w +:+ rest) = rest.
Proof.
  induction w as [|c w IH]; [by destruct rest|]. by rewrite app_cons.
Qed.

Lemma spacesFrom_sound {R} n s (k : string → option R) res :
  spacesFrom n s k = Some res →
  ∃ w rest,
    dropStr n s = w +:+ rest ∧ n ≤ String.length s ∧ spaceRun w
    ∧ k rest = Some res.
Proof.
  revert n. induction s as [|c s IH]; intros n.
  - destruct n; simpl; [|done]. intros Hk. exists "", "".
    split; [done|]. split; [done|]. split; [constructor|].
    by destruct (spaceLen "").
  - destruct n as [|n]; cbn [spacesFrom].
    + destruct (spaceLen (String c s)) as [|m] eqn:El.
      { intros Hk. exists "", (String c s). simpl.
        split; [done|]. split; [lia|]. split; [constructor|done]. }
      destruct (spaceLen_Some _ _ El) as (w & rest0 & Hin & Hs & Hlen).
      destruct (spacesFrom m s k) as [res'|] eqn:E.
      * intros [= ->].
        destruct (IH _ E) as (w' & rest & Hd & Hm & Hrun & Hk).
        exists (w +:+ w'), rest. cbn [dropStr].
        split; [|split; [lia|split; [by constructor|done]]].
        rewrite app_assoc_str, <- Hd.
        change (dropStr m s) with (dropStr (S m) (String c s)).
        by rewrite <- Hlen, Hs, dropStr_app_length.
      * intros Hk. exists "", (String c s). simpl.
        split; [done|]. split; [lia|]. split; [constructor|done].
    + intros (w & rest & Hd & Hn & Hrun & Hk)%IH. exists w, rest.
      cbn [dropStr]. split; [done|]. split; [simpl; lia|done].
Qed.

Lemma spaces_sound {R} s (k : string → option R) res :
  spaces s k = Some res →
  ∃ w rest, s = w +:+ rest ∧ w ≠ "" ∧ spaceRun w ∧ k rest = Some res.
Proof.
  unfold spaces. destruct (spaceLen s) as [|n] eqn:El; [done|].
  destruct (spaceLen_Some _ _ El) as (w & rest0 & Hin & -> & Hlen).
  destruct (w +:+ rest0) as [|c s'] eqn:Es; [done|].
  intros (w' & rest & Hd & Hn & Hrun & Hk)%spacesFrom_sound.
  exists (w +:+ w'), rest.
  split; [|split; [by destruct w|split; [by constructor|done]]].
  rewrite app_assoc_str, <- Hd.
  change (dropStr n s') with (dropStr (S n) (String c s')).
  by rewrite <- Es, <- Hlen, dropStr_app_length.
Qed.

(** The matcher only reports matches of the pattern: the text it hands to
    its continuation is what is left after a text the pattern matches, and
    the capture is the text of the group. *)
Lemma bt_sound {R} r s cap (k : string → option string → option R) res :
  bt r s cap k = Some res →
  ∃ w rest cap',
    s = w +:+ rest ∧ matches r w cap cap' ∧ k rest cap' = Some res.
Proof.
  revert s cap k.
  induction r as [p|cls| |r IH|r1 IH1 r2 IH2|r IH]; intros s cap k; simpl.
  - destruct (dropPrefix p s) as [rest|] eqn:E; [|done].
    intros Hk. apply dropPrefix_Some in E. by exists p, rest, cap.
  - intros (w & rest & -> & Hw & Hall & Hk)%plus_sound. by exists w, rest, cap.
  - intros (w & rest & -> & Hw & Hrun & Hk)%spaces_sound. by exists w, rest, cap.
  - destruct (bt r s cap k) as [res'|] eqn:E.
    + intros [= ->]. destruct (IH _ _ _ E) as (w & rest & cap' & -> & Hm & Hk).
      exists w, rest, cap'. auto.
    + intros Hk. exists "", s, cap. auto.
  - intros (w1 & rest1 & cap1 & -> & Hm1 & H1)%IH1.
    apply IH2 in H1 as (w2 & rest2 & cap2 & -> & Hm2 & H2).
    exists (w1 +:+ w2), rest2, cap2. rewrite app_assoc_str.
    split; [done|]. split; [|done]. by exists w1, w2, cap1.
  - intros (w & rest & cap' & -> & Hm & Hk)%IH.
    rewrite takeStr_app in Hk. exists w, rest, (Some w). eauto.
Qed.

Lemma search_sound r s cap rest :
  search r s = Some (cap, rest) →
  ∃ pre w, s = pre +:+ w +:+ rest ∧ matches r w None cap.
Proof.
  induction s as [|c s IH]; simpl.
  - destruct (bt r "" None _) as [m|] eqn:E; [|done]. intros [= ->].
    apply bt_sound in E as (w & rest' & cap' & Hs & Hm & [= <- <-]).
    by exists "", w.
  - destruct (bt r (String c s) None _) as [m|] eqn:E.
    + intros [= ->].
      apply bt_sound in E as (w & rest' & cap' & Hs & Hm & [= <- <-]).
      by exists "", w.
    + intros (pre & w & -> & Hm)%IH. exists (String c pre), w.
      by rewrite app_cons.
Qed.

Lemma take_drop_str (n : nat) (s : string) : s = takeStr n s +:+ dropStr n s.
Proof.
  revert s. induction n as [|n IH]; intros [|c s]; simpl; try done.
  rewrite app_cons. by rewrite <- IH.
Qed.

Lemma takeStr_length (n : nat) (s : string) :
  n ≤ String.length s → String.length (takeStr n s) = n.
Proof.
  revert s. induction n as [|n IH]; intros [|c s]; simpl; try done; try lia.
  intros Hn. rewrite IH; [done|lia].
Qed.

(** A successful [exec] reports an occurrence of the pattern at or after
    [lastIndex], ending at the new [lastIndex]. *)
Lemma exec_sound r code i cap i' :
  exec r code i = Some (cap, i') →
  ∃ pre w rest,
    code = pre +:+ w +:+ rest ∧ matches r w None cap
    ∧ i ≤ String.length pre ∧ i' = String.length pre + String.length w.
Proof.
  unfold exec. destruct (Nat.ltb_spec (String.length code) i) as [|Hi]; [done|].
  destruct (search r (dropStr i code)) as [[cap0 rest]|] eqn:E; [|done].
  intros [= <- <-]. apply search_sound in E as (pre & w & Hs & Hm).
  exists (takeStr i code +:+ pre), w, rest.
  rewrite app_assoc_str, <- Hs, <- take_drop_str.
  split; [done|]. split; [done|].
  pose proof (dropStr_length i code) as Hd.
  rewrite Hs, !length_app_str in Hd.
  rewrite length_app_str, takeStr_length by done. lia.
Qed.

Lemma matches_module w cap :
  matches moduleRegex w None cap →
  includes w "module" = true ∧ ∃ x, cap = Some x ∧ qualified x.
Proof.
  simpl.
  intros (w1 & w2 & c1 & -> & [-> ->] & w3 & w4 & c2 & -> & (_ & _ & ->)
          & (c3 & wa & w5 & c4 & -> & (Ha & Hwa & ->)
             & wc & wb & c5 & -> & [-> ->] & Hb & Hwb & ->) & ->).
  split.
  - apply includes_spec. by exists "", (w3 +:+ wa +:+ "::" +:+ wb).
  - eexists. split; [done|]. by exists wa, wb.
Qed.

Lemma matches_struct w cap :
  matches structRegex w None cap →
  includes w "struct" = true ∧ ∃ x, cap = Some x ∧ identifier x.
Proof.
  simpl.
  intros (w1 & w2 & c1 & -> & [-> ->] & w3 & w4 & c2 & -> & (_ & _ & ->)
          & (c3 & Hx & Hwx & ->) & ->).
  split.
  - apply includes_spec. by exists "", (w3 +:+ w4).
  - by exists w4.
Qed.

Lemma matches_func w cap :
  matches funcRegex w None cap →
  includes w "fun" = true ∧ ∃ x, cap = Some x ∧ identifier x.
Proof.
  simpl.
  intros (w0 & w' & c0 & -> & Hopt & w1 & w2 & c1 & -> & [-> ->]
          & w3 & w4 & c2 & -> & (_ & _ & ->) & (c3 & Hx & Hwx & ->) & ->).
  split.
  - apply includes_spec. by exists w0, (w3 +:+ w4).
  - by exists w4.
Qed.

End Captures.

(** ** The context, further *)

Section ContextMore.

Implicit Types (this : MoveAI) (h : gmap loc object) (c : MoveContext)
  (v : ContextView) (xs ms : list string).

Lemma exec_includes r code i cap i' (lit : string) :
  (∀ w cap, matches r w None cap → includes w lit = true) →
  exec r code i = Some (cap, i') → includes code lit = true.
Proof.
  intros Hlit (pre & w & rest & -> & Hm & _)%exec_sound.
  apply includes_app_r, includes_app_l. by eapply Hlit.
Qed.

Lemma whileExec_no_match {St} fuel r code (body : string → St → option St) st :
  exec r code 0 = None → whileExec (S fuel) r code 0 body st = Some st.
Proof. simpl. by intros ->. Qed.

(** A no-break space (U+00A0) separates as a space does. *)
Lemma analyzeCode_no_break_space :
  analyzeCode (constructor ∅).1
    ("module" +:+ String.string_of_list_ascii ["194"; "160"]%char +:+ "0x1::Foo")
    (constructor ∅).2
  ≫= (λ h, view h (context (constructor ∅).1))
  = Some {| v_modules := ["0x1::Foo"]; v_structs := []; v_functions := [] |}.
Proof. by vm_compute. Qed.

(** X8. A text that contains neither "module" nor "struct" nor "fun"
    leaves the store exactly as it was; the empty text is one. *)
Theorem analyzeCode_without_keywords this code h :
  includes code "module" = false →
  includes code "struct" = false →
  includes code "fun" = false →
  analyzeCode this code h = Some h.
Proof.
  intros Hm Hs Hf. unfold analyzeCode.
  assert (exec moduleRegex code 0 = None) as Em.
  { destruct (exec moduleRegex code 0) as [[cap i']|] eqn:E; [|done].
    apply (exec_includes _ _ _ _ _ "module") in E; [congruence|].
    intros w cap0 H. by apply matches_module in H as [? _]. }
  assert (exec structRegex code 0 = None) as Es.
  { destruct (exec structRegex code 0) as [[cap i']|] eqn:E; [|done].
    apply (exec_includes _ _ _ _ _ "struct") in E; [congruence|].
    intros w cap0 H. by apply matches_struct in H as [? _]. }
  assert (exec funcRegex code 0 = None) as Ef.
  { destruct (exec funcRegex code 0) as [[cap i']|] eqn:E; [|done].
    apply (exec_includes _ _ _ _ _ "fun") in E; [congruence|].
    intros w cap0 H. by apply matches_func in H as [? _]. }
  rewrite (whileExec_no_match _ _ _ _ _ Em). cbn [mbind option_bind].
  rewrite (whileExec_no_match _ _ _ _ _ Es). cbn [mbind option_bind].
  by rewrite (whileExec_no_match _ _ _ _ _ Ef).
Qed.

Lemma analyzeCode_without_keywords_witness :
  analyzeCode (constructor ∅).1 "" (constructor ∅).2 = Some (constructor ∅).2.
Proof.
  apply (analyzeCode_without_keywords (constructor ∅).1 "" (constructor ∅).2);
    reflexivity.
Defined.

Lemma execAll_Forall (P : string → Prop) fuel r code i ms :
  (∀ w cap x, matches r w None cap → cap = Some x → P x) →
  execAll fuel r code i = Some ms → Forall P ms.
Proof.
  intros HP. revert i ms. induction fuel as [|fuel IH]; intros i ms; simpl; [done|].
  destruct (exec r code i) as [[[m1|] i']|] eqn:E; simpl;
    [|done|by intros [= <-]].
  destruct (execAll fuel r code i') as [ms'|] eqn:E'; simpl; [|done].
  intros [= <-]. constructor; [|by eapply IH].
  apply exec_sound in E as (pre & w & rest & _ & Hm & _). by eapply HP.
Qed.

Lemma addNew_Forall (P : string → Prop) xs m :
  Forall P xs → P m → Forall P (addNew xs m).
Proof.
  intros Hxs Hm. unfold addNew. destruct (arr_includes xs m); [done|].
  apply Forall_app. split; [done|]. by constructor.
Qed.

Lemma foldl_addNew_Forall (P : string → Prop) xs ms :
  Forall P xs → Forall P ms → Forall P (foldl addNew xs ms).
Proof.
  revert xs. induction ms as [|m ms IH]; intros xs Hxs Hms; simpl; [done|].
  apply Forall_cons in Hms as [Hm Hms]. by apply IH; [apply addNew_Forall|].
Qed.

(** An invariant of the views that [analyzeCode] keeps is kept by every
    sequence of calls. *)
Lemma run_invariant (P : ContextView → Prop) this ops h c v :
  (∀ code v ms ss fs,
     P v →
     execAll (S (String.length code)) moduleRegex code 0 = Some ms →
     execAll (S (String.length code)) structRegex code 0 = Some ss →
     execAll (S (String.length code)) funcRegex code 0 = Some fs →
     P {| v_modules := foldl addNew (v_modules v) ms;
          v_structs := foldl addNew (v_structs v) ss;
          v_functions := foldl addNew (v_functions v) fs |}) →
  holds this h c v → P v →
  ∃ h' v', run this ops h = Some h' ∧ holds this h' c v' ∧ P v'.
Proof.
  intros HP. revert h v. induction ops as [|op ops IH]; intros h v Hh Hv.
  { by exists h, v. }
  assert (∃ h1 v1, step this op h = Some h1 ∧ holds this h1 c v1 ∧ P v1)
    as (h1 & v1 & Hstep & Hh1 & Hv1).
  { destruct op; simpl; try by exists h, v.
    destruct (analyzeCode_holds this code h c v Hh)
      as (ms & ss & fs & h1 & Hm & Hs & Hf & Ha & Hh1).
    eexists h1, _. split; [done|]. split; [exact Hh1|]. by eapply HP. }
  destruct (IH h1 v1 Hh1 Hv1) as (h2 & v2 & Hrun & Hh2 & Hv2).
  exists h2, v2. unfold run. simpl. rewrite Hstep. simpl. by split.
Qed.

(** X9. Whatever is analysed, the context only ever holds names of the
    captured form: [modules] holds two identifiers joined by [::],
    [structs] and [functions] hold identifiers, never an empty string. *)
Theorem context_holds_identifiers (h : gmap loc object) (ops : list call) :
  let this := (constructor h).1 in
  ∃ h' v,
    run this ops (constructor h).2 = Some h'
    ∧ view h' (context this) = Some v
    ∧ wellNamed v.
Proof.
  intros this. destruct (constructor_holds h) as [c H0]. fold this in H0.
  assert (∀ code v ms ss fs,
     wellNamed v →
     execAll (S (String.length code)) moduleRegex code 0 = Some ms →
     execAll (S (String.length code)) structRegex code 0 = Some ss →
     execAll (S (String.length code)) funcRegex code 0 = Some fs →
     wellNamed {| v_modules := foldl addNew (v_modules v) ms;
                  v_structs := foldl addNew (v_structs v) ss;
                  v_functions := foldl addNew (v_functions v) fs |}) as Hstep.
  { intros code v ms ss fs (Hvm & Hvs & Hvf) Hm Hs Hf.
    repeat split; cbn [v_modules v_structs v_functions];
      apply foldl_addNew_Forall; try done.
    - eapply execAll_Forall; [|exact Hm].
      intros w cap x Hw ->. by apply matches_module in Hw as [_ (? & [= <-] & ?)].
    - eapply execAll_Forall; [|exact Hs].
      intros w cap x Hw ->. by apply matches_struct in Hw as [_ (? & [= <-] & ?)].
    - eapply execAll_Forall; [|exact Hf].
      intros w cap x Hw ->. by apply matches_func in Hw as [_ (? & [= <-] & ?)]. }
  destruct (run_invariant wellNamed this ops _ c _ Hstep H0)
    as (h' & v' & Hrun & Hh & Hv).
  { by repeat split. }
  exists h', v'. split; [done|]. split; [by eapply holds_view|done].
Qed.

(** The store that [analyzeCode] returns, in closed form. *)
Lemma analyzeCode_store this code h c v :
  holds this h c v →
  ∃ ms ss fs,
    execAll (S (String.length code)) moduleRegex code 0 = Some ms
    ∧ execAll (S (String.length code)) structRegex code 0 = Some ss
    ∧ execAll (S (String.length code)) funcRegex code 0 = Some fs
    ∧ analyzeCode this code h
      = Some (<[functions c := Arr (foldl addNew (v_functions v) fs)]>
               (<[structs c := Arr (foldl addNew (v_structs v) ss)]>
                 (<[modules c := Arr (foldl addNew (v_modules v) ms)]> h))).
Proof.
  intros (Hc & Hm & Hs & Hf & Hms & Hmf & Hsf).
  destruct (execAll_total (S (String.length code)) moduleRegex code 0)
    as [ms Ems]; [simpl; lia|done|lia|].
  destruct (execAll_total (S (String.length code)) structRegex code 0)
    as [ss Ess]; [simpl; lia|done|lia|].
  destruct (execAll_total (S (String.length code)) funcRegex code 0)
    as [fs Efs]; [simpl; lia|done|lia|].
  exists ms, ss, fs. do 3 (split; [done|]).
  pose proof Hc as Hc'. pose proof Hm as Hm'. pose proof Hs as Hs'.
  pose proof Hf as Hf'.
  apply readCtx_Some in Hc'. apply readArr_Some in Hm', Hs', Hf'.
  assert (modules c ≠ context this) by congruence.
  assert (structs c ≠ context this) by congruence.
  assert (functions c ≠ context this) by congruence.
  unfold analyzeCode.
  rewrite (whileExec_execAll _ _ _ _ _ _ _ Ems).
  rewrite (foldM_pushIfNew _ _ _ _ _ _ Hc Hm). cbn [mbind option_bind].
  rewrite (whileExec_execAll _ _ _ _ _ _ _ Ess).
  rewrite (foldM_pushIfNew _ structs _ _ c (v_structs v));
    cbn [mbind option_bind].
  2: { apply readCtx_Some. by rewrite lookup_insert_ne by done. }
  2: { apply readArr_Some. by rewrite lookup_insert_ne by done. }
  rewrite (whileExec_execAll _ _ _ _ _ _ _ Efs).
  rewrite (foldM_pushIfNew _ functions _ _ c (v_functions v)); [done| |].
  - apply readCtx_Some. by rewrite !lookup_insert_ne by done.
  - apply readArr_Some. by rewrite !lookup_insert_ne by done.
Qed.

Lemma foldl_addNew_absorb xs ms :
  (∀ m, m ∈ ms → m ∈ xs) → foldl addNew xs ms = xs.
Proof.
  induction ms as [|m ms IH]; intros Hin; simpl; [done|].
  assert (addNew xs m = xs) as ->.
  { unfold addNew. destruct (arr_includes xs m) eqn:E; [done|].
    assert (m ∈ xs) as Hm by (apply Hin; by left).
    apply arr_includes_spec in Hm. congruence. }
  apply IH. intros m' Hm'. apply Hin. by right.
Qed.

Lemma foldl_addNew_twice xs ms :
  foldl addNew (foldl addNew xs ms) ms = foldl addNew xs ms.
Proof. apply foldl_addNew_absorb. intros m Hm. by apply foldl_addNew_elem. Qed.

(** X10. Analysing the same text a second time changes nothing: the
    second call returns the store it was given. *)
Theorem analyzeCode_idempotent (h : gmap loc object) (ops : list call)
    (code : string) :
  let this := (constructor h).1 in
  ∃ h1 h2,
    run this ops (constructor h).2 = Some h1
    ∧ analyzeCode this code h1 = Some h2
    ∧ analyzeCode this code h2 = Some h2.
Proof.
  intros this. destruct (constructor_holds h) as [c H0]. fold this in H0.
  destruct (run_holds this ops _ c _ H0) as (h1 & v1 & Hrun & H1 & _ & _).
  destruct (analyzeCode_holds this code h1 c v1 H1)
    as (ms & ss & fs & h2 & Hm & Hs & Hf & Ha & H2).
  exists h1, h2. do 2 (split; [done|]).
  destruct (analyzeCode_store this code h2 c _ H2)
    as (ms' & ss' & fs' & Hm' & Hs' & Hf' & ->).
  rewrite Hm in Hm'. rewrite Hs in Hs'. rewrite Hf in Hf'.
  injection Hm' as <-. injection Hs' as <-. injection Hf' as <-.
  cbn [v_modules v_structs v_functions]. rewrite !foldl_addNew_twice.
  destruct H2 as (_ & Hrm & Hrs & Hrf & Hne1 & Hne2 & Hne3).
  apply readArr_Some in Hrm, Hrs, Hrf.
  cbn [v_modules v_structs v_functions] in *.
  by rewrite (insert_id _ _ _ Hrm), (insert_id _ _ _ Hrs), (insert_id _ _ _ Hrf).
Qed.

(** X11. [analyzeCode] writes to the three arrays of the instance and to
    nothing else: every other location of the store, the context object
    included, holds what it held before. *)
Theorem analyzeCode_frame (h : gmap loc object) (ops : list call)
    (code : string) :
  let this := (constructor h).1 in
  ∃ h1 h2 c,
    run this ops (constructor h).2 = Some h1
    ∧ readCtx h1 (context this) = Some c
    ∧ analyzeCode this code h1 = Some h2
    ∧ h2 !! context this = h1 !! context this
    ∧ ∀ l, l ≠ modules c → l ≠ structs c → l ≠ functions c →
           h2 !! l = h1 !! l.
Proof.
  intros this. destruct (constructor_holds h) as [c H0]. fold this in H0.
  destruct (run_holds this ops _ c _ H0) as (h1 & v1 & Hrun & H1 & _ & _).
  destruct (analyzeCode_store this code h1 c v1 H1)
    as (ms & ss & fs & _ & _ & _ & Ha).
  eexists h1, _, c. split; [done|]. split; [apply H1|]. split; [exact Ha|].
  assert (∀ l, l ≠ modules c → l ≠ structs c → l ≠ functions c →
    <[functions c := Arr (foldl addNew (v_functions v1) fs)]>
      (<[structs c := Arr (foldl addNew (v_structs v1) ss)]>
        (<[modules c := Arr (foldl addNew (v_modules v1) ms)]> h1)) !! l
    = h1 !! l) as Hframe.
  { intros l ???. by rewrite !lookup_insert_ne by done. }
  split; [|done].
  destruct H1 as (Hc & Hm & Hs & Hf & _).
  apply readCtx_Some in Hc. apply readArr_Some in Hm, Hs, Hf.
  apply Hframe; congruence.
Qed.









(** No white-space character starts with a word character. *)
Lemma isWord_not_space (c : ascii) (t : string) :
  isWord c = true → spaceLen (String c t) = 0.
Proof. by destruct c as [[] [] [] [] [] [] [] []]. Qed.

Lemma identifier_ahead_space (a rest : string) :
  identifier a → spaceLen (a +:+ rest) = 0.
Proof.
  intros [Hne Hall]. destruct a as [|c a]; [done|].
  rewrite app_cons. simpl in Hall. apply isWord_not_space.
  by apply andb_true_iff in Hall as [? _].
Qed.

Lemma bt_module_header (a n rest : string) :
  identifier a → identifier n → ahead isWord rest = false →
  bt moduleRegex (header a n +:+ rest) None (λ rest cap, Some (cap, rest))
  = Some (Some (a +:+ "::" +:+ n), rest).
Proof.
  intros Ha Hn Hrest. unfold header. rewrite !app_assoc_str.
  change ("module " +:+ a +:+ "::" +:+ n +:+ rest)
    with ("module" +:+ " " +:+ a +:+ "::" +:+ n +:+ rest).
  unfold moduleRegex. cbn [bt]. rewrite dropPrefix_app.
  apply spaces_one; [by apply identifier_ahead_space|].
  destruct Ha as [Ha1 Ha2], Hn as [Hn1 Hn2].
  apply plus_greedy; [done..|].
  rewrite dropPrefix_app.
  apply plus_greedy; [done..|].
  replace (a +:+ "::" +:+ n +:+ rest) with ((a +:+ "::" +:+ n) +:+ rest)
    by by rewrite !app_assoc_str.
  by rewrite takeStr_app.
Qed.

Lemma exec_module_header (a n rest : string) :
  identifier a → identifier n → ahead isWord rest = false →
  ∃ i, exec moduleRegex (header a n +:+ rest) 0
       = Some (Some (a +:+ "::" +:+ n), i).
Proof.
  intros Ha Hn Hrest. unfold exec.
  destruct (Nat.ltb_spec (String.length (header a n +:+ rest)) 0); [lia|].
  cbn [dropStr].
  rewrite (search_here _ _ _ (bt_module_header a n rest Ha Hn Hrest)).
  by eexists.
Qed.

Lemma generateCode_header intent params (a n : string) :
  params !! "address" = Some a → params !! "name" = Some n →
  a ≠ "" → n ≠ "" → recognised intent = true →
  ∃ body, generateCode intent params = header a n +:+ body
          ∧ ahead isWord body = false.
Proof.
  intros Ha Hn Hane Hnne. unfold recognised, generateCode.
  unfold generateTokenContract, generateNFTContract, generateMarketplace,
    generateModule.
  rewrite Ha, Hn.
  assert (∀ d, or_default (Some a) d = a) as Ea by (intros d; by destruct a).
  assert (∀ d, or_default (Some n) d = n) as En by (intros d; by destruct n).
  rewrite !Ea, !En.
  destruct (includes _ "token"); simpl; [by eexists|].
  destruct (includes _ "coin"); simpl; [by eexists|].
  destruct (includes _ "nft"); simpl; [by eexists|].
  destruct (includes _ "marketplace"); simpl; [by eexists|].
  destruct (includes _ "module"); simpl; [by eexists|done].
Qed.

(** X14. Generated code can be fed back to the extractor: when the name
    and the address are identifiers, analysing the code generated for a
    recognised intent records the module as [address::name]. *)
Theorem analyze_generated (h : gmap loc object) (ops : list call)
    (intent : string) (params : gmap string string) (a n : string) :
  params !! "address" = Some a → params !! "name" = Some n →
  identifier a → identifier n → recognised intent = true →
  let this := (constructor h).1 in
  ∃ h1 h2 v,
    run this ops (constructor h).2 = Some h1
    ∧ analyzeCode this (generateCode intent params) h1 = Some h2
    ∧ view h2 (context this) = Some v
    ∧ a +:+ "::" +:+ n ∈ v_modules v.
Proof.
  intros Ha Hn Ia In Hrec this.
  destruct (generateCode_header intent params a n Ha Hn (proj1 Ia) (proj1 In) Hrec)
    as (body & -> & Hbody).
  destruct (constructor_holds h) as [c H0]. fold this in H0.
  destruct (run_holds this ops _ c _ H0) as (h1 & v1 & Hrun & H1 & _ & _).
  destruct (analyzeCode_holds this (header a n +:+ body) h1 c v1 H1)
    as (ms & ss & fs & h2 & Hm & _ & _ & Hana & H2).
  eexists h1, h2, _. split; [done|]. split; [done|].
  split; [by eapply holds_view|]. cbn [v_modules].
  apply foldl_addNew_elem.
  destruct (exec_module_header a n body Ia In Hbody) as [i Hexec].
  cbn [execAll] in Hm. rewrite Hexec in Hm. cbn [mbind option_bind] in Hm.
  destruct (execAll _ _ _ i) as [ms'|]; [|done].
  injection Hm as <-. by left.
Qed.

Lemma analyze_generated_witness :
  ∃ h1 h2 v,
    run (constructor ∅).1 [] (constructor ∅).2 = Some h1
    ∧ analyzeCode (constructor ∅).1
        (generateCode "create a token"
           {[ "address" := "0xCAFE"; "name" := "GameToken" ]}) h1 = Some h2
    ∧ view h2 (context (constructor ∅).1) = Some v
    ∧ "0xCAFE" +:+ "::" +:+ "GameToken" ∈ v_modules v.
Proof.
  apply (analyze_generated ∅ [] "create a token"
           {[ "address" := "0xCAFE"; "name" := "GameToken" ]}
           "0xCAFE" "GameToken");
    by vm_compute.
Defined.

Lemma foldl_addNew_appended xs ms : appended xs ms (foldl addNew xs ms).
Proof.
  revert xs. induction ms as [|m ms IH]; intros xs; simpl.
  { exists []. rewrite app_nil_r. split; [done|]. split; [done|].
    split; [constructor|]. split; [|done].
    intros x. rewrite elem_of_nil. tauto. }
  unfold addNew at 2. destruct (arr_includes xs m) eqn:E.
  - apply arr_includes_spec in E.
    destruct (IH xs) as (zs & -> & Hsub & Hnd & Hin & Hord).
    exists zs. split; [done|]. split; [by apply sublist_cons|].
    split; [done|]. split.
    + intros x. rewrite Hin, elem_of_cons.
      split; [tauto|]. intros [[->|?] ?]; tauto.
    + intros i j x y Hi Hj Hij.
      destruct (Hord i j x y Hi Hj Hij) as (p & Hp & Hq).
      exists (S p). split; [done|]. intros [|q] Hle; simpl.
      * intros [= ->]. apply list_elem_of_lookup_2, Hin in Hj. tauto.
      * apply Hq. lia.
  - assert (m ∉ xs) as Hm.
    { intros Hm%arr_includes_spec. congruence. }
    destruct (IH (xs ++ [m])) as (zs & -> & Hsub & Hnd & Hin & Hord).
    assert (m ∉ zs) as Hmz.
    { rewrite Hin, elem_of_app, list_elem_of_singleton. tauto. }
    exists (m :: zs). split; [by rewrite <- app_assoc|].
    split; [by apply sublist_skip|]. split; [by apply NoDup_cons|]. split.
    + intros x. rewrite !elem_of_cons, Hin, elem_of_app, list_elem_of_singleton.
      destruct (decide (x = m)) as [->|]; tauto.
    + intros i j x y Hi Hj Hij. destruct j as [|j]; [lia|]. simpl in Hj.
      assert (y ≠ m) as Hym.
      { intros ->. by apply list_elem_of_lookup_2 in Hj. }
      destruct i as [|i]; simpl in Hi.
      * injection Hi as <-. exists 0. split; [done|].
        intros q Hq. replace q with 0 by lia. simpl. congruence.
      * destruct (Hord i j x y Hi Hj) as (p & Hp & Hq); [lia|].
        exists (S p). split; [done|]. intros [|q] Hle; simpl.
        -- congruence.
        -- apply Hq. lia.
Qed.

(** The relation fixes the result: the names, their number and their
    order are all determined by [xs] and [ms]. *)
Lemma appended_unique xs ms ys ys' :
  appended xs ms ys → appended xs ms ys' → ys = ys'.
Proof.
  intros (zs & -> & _ & Hnd & Hin & Hord) (zs' & -> & _ & Hnd' & Hin' & Hord').
  f_equal.
  assert (∀ x, x ∈ zs ↔ x ∈ zs') as Hsame.
  { intros x. by rewrite Hin, Hin'. }
  clear Hin Hin'. revert zs' Hnd' Hord' Hsame.
  induction zs as [|a t IH]; intros zs' Hnd' Hord' Hsame.
  { destruct zs' as [|b ?]; [done|].
    exfalso. apply (elem_of_nil b), Hsame. by left. }
  apply NoDup_cons in Hnd as [Hat Hnd].
  destruct zs' as [|b t'].
  { exfalso. apply (elem_of_nil a), Hsame. by left. }
  apply NoDup_cons in Hnd' as [Hbt Hnd'].
  assert (a = b) as <-.
  { destruct (decide (a = b)) as [|Hab]; [done|exfalso].
    assert (b ∈ t) as Hb.
    { assert (b ∈ a :: t) as H by (apply Hsame; by left).
      apply elem_of_cons in H as [->|]; done. }
    assert (a ∈ t') as Ha.
    { assert (a ∈ b :: t') as H by (apply Hsame; by left).
      apply elem_of_cons in H as [->|]; done. }
    apply list_elem_of_lookup_1 in Hb as [j Hj].
    apply list_elem_of_lookup_1 in Ha as [j' Hj'].
    destruct (Hord 0 (S j) a b eq_refl Hj) as (p & Hp & Hq); [lia|].
    destruct (Hord' 0 (S j') b a eq_refl Hj') as (p' & Hp' & Hq'); [lia|].
    destruct (decide (p ≤ p')) as [Hle|Hgt].
    - by apply (Hq' p Hle).
    - apply (Hq p'); [lia|done]. }
  f_equal. apply IH; [done| |done| |].
  - intros i j x y Hi Hj Hij. apply (Hord (S i) (S j) x y Hi Hj). lia.
  - intros i j x y Hi Hj Hij. apply (Hord' (S i) (S j) x y Hi Hj). lia.
  - intros x. specialize (Hsame x). rewrite !elem_of_cons in Hsame.
    split; intros Hx.
    + destruct (proj1 Hsame (or_intror Hx)) as [->|]; done.
    + destruct (proj2 Hsame (or_intror Hx)) as [->|]; done.
Qed.

(** X18. One call appends, to each array, the captured names the array
    lacks, each once and in the order in which the text first shows
    them; what the array held keeps its place.  ([appended_unique]: no
    other result satisfies the relation.) *)
Theorem analyzeCode_first_seen (h : gmap loc object) (ops : list call)
    (code : string) :
  let this := (constructor h).1 in
  ∃ h1 v1 h2 v2 ms ss fs,
    run this ops (constructor h).2 = Some h1
    ∧ view h1 (context this) = Some v1
    ∧ analyzeCode this code h1 = Some h2
    ∧ view h2 (context this) = Some v2
    ∧ execAll (S (String.length code)) moduleRegex code 0 = Some ms
    ∧ execAll (S (String.length code)) structRegex code 0 = Some ss
    ∧ execAll (S (String.length code)) funcRegex code 0 = Some fs
    ∧ appended (v_modules v1) ms (v_modules v2)
    ∧ appended (v_structs v1) ss (v_structs v2)
    ∧ appended (v_functions v1) fs (v_functions v2).
Proof.
  intros this. destruct (constructor_holds h) as [c H0]. fold this in H0.
  destruct (run_holds this ops _ c _ H0) as (h1 & v1 & Hrun & H1 & _ & _).
  destruct (analyzeCode_holds this code h1 c v1 H1)
    as (ms & ss & fs & h2 & Hm & Hs & Hf & Ha & H2).
  eexists h1, v1, h2, _, ms, ss, fs.
  split; [done|]. split; [by eapply holds_view|]. split; [done|].
  split; [by eapply holds_view|]. do 3 (split; [done|]).
  repeat split; apply foldl_addNew_appended.
Qed.

Lemma elem_of_foldl_addNew xs ms (x : string) :
  x ∈ foldl addNew xs ms ↔ x ∈ xs ∨ x ∈ ms.
Proof.
  destruct (foldl_addNew_appended xs ms) as (zs & -> & _ & _ & Hin & _).
  rewrite elem_of_app, Hin. destruct (decide (x ∈ xs)); tauto.
Qed.

(** X19. The order in which two texts are analysed decides the order of
    the entries and nothing else: either order leaves the same names in
    each array. *)
Theorem analyzeCode_order (h : gmap loc object) (ops : list call)
    (code1 code2 : string) :
  let this := (constructor h).1 in
  ∃ h1 h12 h21 v12 v21,
    run this ops (constructor h).2 = Some h1
    ∧ run this [AnalyzeCode code1; AnalyzeCode code2] h1 = Some h12
    ∧ run this [AnalyzeCode code2; AnalyzeCode code1] h1 = Some h21
    ∧ view h12 (context this) = Some v12
    ∧ view h21 (context this) = Some v21
    ∧ v_modules v12 ≡ₚ v_modules v21
    ∧ v_structs v12 ≡ₚ v_structs v21
    ∧ v_functions v12 ≡ₚ v_functions v21.
Proof.
  intros this. destruct (constructor_holds h) as [c H0]. fold this in H0.
  destruct (run_holds this ops _ c _ H0) as (h1 & v1 & Hrun & H1 & _ & Hnd).
  assert (distinct v1) as (Dm & Ds & Df)
    by (apply Hnd; repeat split; apply NoDup_nil_2).
  destruct (analyzeCode_holds this code1 h1 c v1 H1)
    as (ms1 & ss1 & fs1 & ha & Em1 & Es1 & Ef1 & Ea & Ha).
  destruct (analyzeCode_holds this code2 ha c _ Ha)
    as (ms2 & ss2 & fs2 & hab & Em2 & Es2 & Ef2 & Eab & Hab).
  destruct (analyzeCode_holds this code2 h1 c v1 H1)
    as (ms2' & ss2' & fs2' & hb & Em2' & Es2' & Ef2' & Eb & Hb).
  rewrite Em2 in Em2'. rewrite Es2 in Es2'. rewrite Ef2 in Ef2'.
  injection Em2' as <-. injection Es2' as <-. injection Ef2' as <-.
  destruct (analyzeCode_holds this code1 hb c _ Hb)
    as (ms1' & ss1' & fs1' & hba & Em1' & Es1' & Ef1' & Eba & Hba).
  rewrite Em1 in Em1'. rewrite Es1 in Es1'. rewrite Ef1 in Ef1'.
  injection Em1' as <-. injection Es1' as <-. injection Ef1' as <-.
  eexists h1, hab, hba, _, _. split; [done|].
  split. { unfold run. cbn [foldM step]. rewrite Ea. simpl. by rewrite Eab. }
  split. { unfold run. cbn [foldM step]. rewrite Eb. simpl. by rewrite Eba. }
  split; [by eapply holds_view|]. split; [by eapply holds_view|].
  cbn [v_modules v_structs v_functions] in *.
  assert (∀ xs a b, NoDup xs →
            foldl addNew (foldl addNew xs a) b ≡ₚ foldl addNew (foldl addNew xs b) a)
    as Hperm.
  { intros xs a b Hxs. apply NoDup_Permutation.
    - by do 2 apply foldl_addNew_NoDup.
    - by do 2 apply foldl_addNew_NoDup.
    - intros x. rewrite !elem_of_foldl_addNew. tauto. }
  repeat split; by apply Hperm.
Qed.

End ContextMore.

(** ** The two reviewers *)

Section TwoReviewers.

(** X17. The reviewer of the command-line file and the reviewer of the
    library fire the same rules in the same order on every source: their
    results differ only in the wording of the messages. *)
Theorem reviewers_agree (code : string) :
  TestFile.reviewCode code = map cliMessage (reviewCode code).
Proof.
  unfold TestFile.reviewCode, reviewCode.
  destruct (includes code "borrow_global"), (includes code "acquires"),
    (includes code "move_to"), (includes code "struct"),
    (includes code "has key"), (includes code "const E_");
    by vm_compute.
Qed.

End TwoReviewers.


(** ** The emitted [transfer], in full *)

Section TransferMore.
Import Move.

Implicit Types (from : signer) (g : gmap Z Balance).

Lemma transfer_inv from to amount g g' :
  transfer from to amount g = Ok g' →
  ∃ b c,
    g !! address_of from = Some b
    ∧ g !! to = Some c
    ∧ (amount ≤ value b)%Z
    ∧ <[address_of from := {| value := value b - amount |}]> g !! to
      = Some (if decide (address_of from = to)
              then {| value := value b - amount |} else c)
    ∧ ((if decide (address_of from = to)
        then value b - amount else value c) + amount ≤ u64_max)%Z
    ∧ g' = <[to := {| value :=
                    (if decide (address_of from = to)
                     then value b - amount else value c) + amount |}]>
             (<[address_of from := {| value := value b - amount |}]> g).
Proof.
  unfold transfer, borrow_global_mut, sub_u64, add_u64, move_to, exists_, assert.
  destruct (g !! address_of from) as [b|] eqn:Hb; [|done]. cbn -[u64_max].
  destruct (Z.leb_spec amount (value b)) as [Hle|]; [|done]. cbn -[u64_max].
  destruct (decide (address_of from = to)) as [<-|Hne].
  - repeat first [rewrite lookup_insert_eq | progress cbn -[u64_max]].
    destruct (Z.leb_spec (value b - amount + amount) u64_max); [|done].
    cbn -[u64_max]. intros [= <-]. exists b, b.
    rewrite lookup_insert_eq. by repeat split.
  - rewrite lookup_insert_ne by done.
    destruct (g !! to) as [c|] eqn:Hc; cbn -[u64_max].
    + rewrite lookup_insert_ne, Hc by done. cbn -[u64_max].
      destruct (Z.leb_spec (value c + amount) u64_max); [|done].
      cbn -[u64_max]. intros [= <-]. exists b, c.
      rewrite lookup_insert_ne by done. by repeat split.
    + by rewrite lookup_insert_eq.
Qed.

(** X15. The emitted [transfer] succeeds exactly when sender and
    recipient both already hold a [Balance], the sender's covers the
    amount and the recipient's does not overflow; it never succeeds for a
    recipient without a [Balance]. *)
Theorem transfer_succeeds_iff from to amount g :
  (∃ g', transfer from to amount g = Ok g')
  ↔ ∃ b c,
      g !! address_of from = Some b
      ∧ g !! to = Some c
      ∧ (amount ≤ value b)%Z
      ∧ (if decide (address_of from = to)
         then (value b ≤ u64_max)%Z
         else (value c + amount ≤ u64_max)%Z).
Proof.
  split.
  - intros [g' (b & c & Hb & Hc & Hle & _ & Hmax & _)%transfer_inv].
    exists b, c. do 3 (split; [done|]).
    destruct (decide (address_of from = to)); [lia|done].
  - intros (b & c & Hb & Hc & Hle & Hmax).
    unfold transfer, borrow_global_mut, sub_u64, add_u64, move_to, exists_,
      assert.
    rewrite Hb. cbn -[u64_max]. rewrite (proj2 (Z.leb_le _ _) Hle).
    cbn -[u64_max].
    destruct (decide (address_of from = to)) as [<-|Hne].
    + repeat first [rewrite lookup_insert_eq | progress cbn -[u64_max]].
      rewrite (proj2 (Z.leb_le (value b - amount + amount) u64_max)) by lia.
      by eexists.
    + repeat first [rewrite lookup_insert_ne by done | rewrite Hc
                   | progress cbn -[u64_max]].
      rewrite (proj2 (Z.leb_le _ _) Hmax). by eexists.
Qed.

Lemma transfer_succeeds_iff_witness :
  ∃ g',
    transfer {| address_of := 1 |} 2 3
      {[ 1%Z := {| value := 10 |}; 2%Z := {| value := 5 |} ]} = Ok g'.
Proof.
  apply (transfer_succeeds_iff {| address_of := 1 |} 2 3
           {[ 1%Z := {| value := 10 |}; 2%Z := {| value := 5 |} ]}).
  exists {| value := 10 |}, {| value := 5 |}. by vm_compute.
Defined.

(** X16. A successful [transfer] creates and destroys no resource,
    leaves every third account alone, moves exactly [amount] from the
    sender to a different recipient, and changes nothing when sender and
    recipient are the same account. *)
Theorem transfer_effect from to amount g g' :
  transfer from to amount g = Ok g' →
  dom g' = dom g
  ∧ (∀ a, a ≠ address_of from → a ≠ to → g' !! a = g !! a)
  ∧ (address_of from = to → g' = g)
  ∧ (address_of from ≠ to →
     ∃ b c,
       g !! address_of from = Some b ∧ g !! to = Some c
       ∧ g' !! address_of from = Some {| value := value b - amount |}
       ∧ g' !! to = Some {| value := value c + amount |}).
Proof.
  intros (b & c & Hb & Hc & Hle & Hmid & Hmax & ->)%transfer_inv.
  split; [|split; [|split]].
  - rewrite !dom_insert_lookup_L; by eauto.
  - intros a ??. by rewrite !lookup_insert_ne by done.
  - intros <-. rewrite decide_True by done. rewrite insert_insert_eq.
    apply insert_id. rewrite Hb. f_equal. destruct b as [vb]. simpl.
    f_equal. lia.
  - intros Hne. rewrite decide_False by done. exists b, c.
    do 2 (split; [done|]).
    by rewrite lookup_insert_ne, !lookup_insert_eq by done.
Qed.

Lemma transfer_effect_witness :
  dom (<[2%Z := {| value := 8 |}]>
         (<[1%Z := {| value := 7 |}]>
            ({[ 1%Z := {| value := 10 |}; 2%Z := {| value := 5 |} ]}
               : gmap Z Balance)))
  = dom ({[ 1%Z := {| value := 10 |}; 2%Z := {| value := 5 |} ]} : gmap Z Balance).
Proof.
  apply (transfer_effect {| address_of := 1 |} 2 3
           {[ 1%Z := {| value := 10 |}; 2%Z := {| value := 5 |} ]}).
  by vm_compute.
Defined.

End TransferMore.
